(** * PolyForest (InTreeG.py): stacking of solids and forest assembly

    A shallow embedding of [streamlit_files/InTreeG.py].

    - numpy [float64] coordinates are rationals ([Q]).  Arithmetic is exact
      in the operations of the first part; where rounding decides a property
      (how close [stack_on_top] lands), the operation is given again with
      the rounding of every arithmetic step explicit ([stack_on_top_rounded])
      and float64 rounding is [round64];
    - a [trimesh.Trimesh] object is a record of a vertex array, a face array
      and a per-face colour array; Python objects live in a heap of meshes
      and are named by references, because [stack_on_top] and
      [apply_translation] mutate their argument in place;
    - the global numpy random generator is a stream of raw samples together
      with a cursor, threaded through every call;
    - a Python exception is the [None] outcome of a computation;
    - the primitives of [trimesh.creation] (cylinder, icosphere, cone) are an
      interface ([Creation]) whose contract ([CreationSpec]) records what the
      script relies on. *)

From Stdlib Require Import QArith Qminmax Qround Qabs Qpower Lqa Lia ZArith String.
From stdpp Require Import base list.

Local Open Scope Q_scope.

(** ** Vectors, colours and meshes *)

Definition vec3 : Type := Q * Q * Q.

Definition vx (v : vec3) : Q := v.1.1.
Definition vy (v : vec3) : Q := v.1.2.
Definition vz (v : vec3) : Q := v.2.

Definition vadd (t v : vec3) : vec3 := (vx v + vx t, vy v + vy t, vz v + vz t).

Definition face : Type := nat * nat * nat.

Definition face_indices (f : face) : list nat := [f.1.1; f.1.2; f.2].

(** A colour is the Python list of its channels. *)
Definition color : Type := list Z.

Record Trimesh : Type := mkTrimesh {
  vertices : list vec3;
  faces : list face;
  face_colors : list color
}.

(** ** Column-wise minimum and maximum of a non-empty array *)

Fixpoint minimum (x : Q) (l : list Q) : Q :=
  match l with
  | [] => x
  | y :: l' => Qmin x (minimum y l')
  end.

Fixpoint maximum (x : Q) (l : list Q) : Q :=
  match l with
  | [] => x
  | y :: l' => Qmax x (maximum y l')
  end.

Definition column_min (f : vec3 -> Q) (vs : list vec3) : option Q :=
  match vs with
  | [] => None
  | v :: vs' => Some (minimum (f v) (map f vs'))
  end.

Definition column_max (f : vec3 -> Q) (vs : list vec3) : option Q :=
  match vs with
  | [] => None
  | v :: vs' => Some (maximum (f v) (map f vs'))
  end.

(** Lowest and highest Z over all the vertices of a mesh. *)
Definition min_z (m : Trimesh) : option Q := column_min vz (vertices m).
Definition max_z (m : Trimesh) : option Q := column_max vz (vertices m).

(** ** [Trimesh.bounds]

    The library takes the bounding box over the vertices that some face
    references ([vertices[referenced_vertices]]); it is the Python value
    [None] when there is none, and building the mask fails on a face index
    past the vertex array.  Both are the [None] below: subscripting either
    raises in [stack_on_top]. *)

Definition faces_in_range (m : Trimesh) : bool :=
  forallb (fun f => forallb (fun i => Nat.ltb i (length (vertices m))) (face_indices f))
          (faces m).

Definition is_referenced (fs : list face) (i : nat) : bool :=
  existsb (fun f => existsb (Nat.eqb i) (face_indices f)) fs.

Fixpoint select_from (keep : nat -> bool) (i : nat) (vs : list vec3) : list vec3 :=
  match vs with
  | [] => []
  | v :: vs' =>
      if keep i then v :: select_from keep (S i) vs' else select_from keep (S i) vs'
  end.

Definition in_mesh (m : Trimesh) : list vec3 :=
  select_from (is_referenced (faces m)) 0%nat (vertices m).

Definition bounds (m : Trimesh) : option (vec3 * vec3) :=
  if faces_in_range m then
    match in_mesh m with
    | [] => None
    | v :: vs =>
        Some ((minimum (vx v) (map vx vs), minimum (vy v) (map vy vs),
               minimum (vz v) (map vz vs)),
              (maximum (vx v) (map vx vs), maximum (vy v) (map vy vs),
               maximum (vz v) (map vz vs)))
    end
  else None.

(** A solid as the script builds them: it has vertices, every face index is
    a vertex of it, and every vertex belongs to some face. *)
Definition all_referenced (m : Trimesh) : bool :=
  forallb (is_referenced (faces m)) (seq 0 (length (vertices m))).

Definition well_formed (m : Trimesh) : bool :=
  negb (Nat.eqb (length (vertices m)) 0) && faces_in_range m && all_referenced m.

(** ** Pure mesh operations *)

(** [Trimesh.apply_translation]: every vertex moves by the same vector. *)
Definition translate (t : vec3) (m : Trimesh) : Trimesh :=
  mkTrimesh (map (vadd t) (vertices m)) (faces m) (face_colors m).

(** [mesh.visual.face_colors = c] with a single colour: one copy per face. *)
Definition paint (c : color) (m : Trimesh) : Trimesh :=
  mkTrimesh (vertices m) (faces m) (repeat c (length (faces m))).

Definition offset_face (k : nat) (f : face) : face :=
  ((f.1.1 + k)%nat, (f.1.2 + k)%nat, (f.2 + k)%nat).

(** [trimesh.util.concatenate]: vertex arrays appended, each mesh's faces
    offset by the number of vertices before it, colours appended. *)
Definition append_mesh (a b : Trimesh) : Trimesh :=
  mkTrimesh (vertices a ++ vertices b)
            (faces a ++ map (offset_face (length (vertices a))) (faces b))
            (face_colors a ++ face_colors b).

Definition empty_mesh : Trimesh := mkTrimesh [] [] [].

Definition merge (ms : list Trimesh) : Trimesh := fold_left append_mesh ms empty_mesh.

(** ** The interpreter state: heap of meshes and random generator *)

Definition ref : Type := nat.

Record World : Type := mkWorld {
  heap : list Trimesh;        (* the mesh objects alive, by reference *)
  rng_draws : nat -> Q;       (* raw samples of the global generator *)
  rng_pos : nat               (* how many samples were consumed *)
}.

(** A computation reads and updates the world, or raises. *)
Definition M (A : Type) : Type := World -> option (A * World).

Definition ret {A : Type} (a : A) : M A := fun w => Some (a, w).

Definition bind {A B : Type} (c : M A) (k : A -> M B) : M B :=
  fun w => match c w with
           | Some (a, w') => k a w'
           | None => None
           end.

Definition raise {A : Type} : M A := fun _ => None.

Declare Scope prog_scope.
Delimit Scope prog_scope with prog.
Notation "x <- c ;; k" := (bind c (fun x => k))
  (at level 100, c at next level, right associativity) : prog_scope.
Notation "c ;; k" := (bind c (fun _ => k))
  (at level 100, right associativity) : prog_scope.
Local Open Scope prog_scope.

(** Object creation, attribute read and in-place update. *)
Definition new (m : Trimesh) : M ref :=
  fun w => Some (length (heap w), mkWorld (heap w ++ [m]) (rng_draws w) (rng_pos w)).

Definition load (r : ref) : M Trimesh :=
  fun w => match heap w !! r with
           | Some m => Some (m, w)
           | None => None
           end.

Definition update (r : ref) (f : Trimesh -> Trimesh) : M unit :=
  fun w => match heap w !! r with
           | Some m => Some (tt, mkWorld (<[r := f m]> (heap w)) (rng_draws w) (rng_pos w))
           | None => None
           end.

(** [np.random.rand()]: the next raw sample. *)
Definition rand : M Q :=
  fun w => Some (rng_draws w (rng_pos w), mkWorld (heap w) (rng_draws w) (S (rng_pos w))).

(** [np.random.uniform(low, high)]. *)
Definition uniform (low high : Q) : M Q :=
  u <- rand ;; ret (low + (high - low) * u).

(** [np.random.randint(low, high)]: an integer of [low, high); it raises
    when the interval is empty. *)
Definition randint (low high : Z) : M Z :=
  if (low <? high)%Z
  then u <- rand ;; ret (low + Qfloor (u * inject_Z (high - low)))%Z
  else raise.

Fixpoint for_each {A B : Type} (f : A -> M B) (l : list A) : M (list B) :=
  match l with
  | [] => ret []
  | a :: l' => b <- f a ;; bs <- for_each f l' ;; ret (b :: bs)
  end.

(** ** Geometry helpers of the script *)

Definition clip (x lo hi : Z) : Z := Z.min (Z.max x lo) hi.

Definition get_random_color (base_rgb : list Z) (variance : Z) : M color :=
  cs <- for_each (fun c => d <- randint (- variance) variance ;; ret (clip (c + d) 0 255))
                 base_rgb ;;
  ret (cs ++ [255%Z]).

Definition apply_translation (r : ref) (t : vec3) : M unit := update r (translate t).

Definition set_face_colors (r : ref) (c : color) : M unit := update r (paint c).

Definition get_bounds (r : ref) : M (vec3 * vec3) :=
  m <- load r ;;
  match bounds m with
  | Some b => ret b
  | None => raise
  end.

Definition stack_on_top (bottom_mesh top_mesh : ref) (overlap : Q) : M ref :=
  bb <- get_bounds bottom_mesh ;;
  let bottom_z_max := vz bb.2 in
  tb <- get_bounds top_mesh ;;
  let top_z_min := vz tb.1 in
  let shift_z := (bottom_z_max - overlap) - top_z_min in
  apply_translation top_mesh (0, 0, shift_z) ;;
  ret top_mesh.

Definition concatenate (rs : list ref) : M ref :=
  ms <- for_each load rs ;; new (merge ms).

(** The primitives of [trimesh.creation], by keyword arguments. *)
Record Creation : Type := mkCreation {
  cylinder : Q -> Q -> nat -> Trimesh;   (* radius, height, sections *)
  icosphere : nat -> Q -> Trimesh;       (* subdivisions, radius *)
  cone : Q -> Q -> nat -> Trimesh        (* radius, height, sections *)
}.

Definition OVERLAP_AMOUNT : Q := 0.5.

Inductive archetype : Type := Roundy | Pointy | Stacked.

Section Script.

Variable trimesh : Creation.

(** [radius] defaults to 0.7 in the script; callers below pass it. *)
Definition create_trunk (height radius : Q) : M ref :=
  trunk <- new (cylinder trimesh radius height 5) ;;
  set_face_colors trunk [101; 67; 33; 255]%Z ;;
  apply_translation trunk (0, 0, height / 2) ;;
  ret trunk.

Definition create_roundy_tree (pos : vec3) : M ref :=
  h_trunk <- uniform 3 6 ;;
  r_crown <- uniform 2.5 4.5 ;;
  trunk <- create_trunk h_trunk 0.7 ;;
  crown <- new (icosphere trimesh 1 r_crown) ;;
  col <- get_random_color [124; 204; 57]%Z 25 ;;
  set_face_colors crown col ;;
  stack_on_top trunk crown OVERLAP_AMOUNT ;;
  tree <- concatenate [trunk; crown] ;;
  apply_translation tree pos ;;
  ret tree.

Definition create_pointy_tree (pos : vec3) : M ref :=
  h_trunk <- uniform 2 4 ;;
  h_crown <- uniform 6 10 ;;
  r_crown <- uniform 2.5 4.0 ;;
  trunk <- create_trunk h_trunk 0.6 ;;
  crown <- new (cone trimesh r_crown h_crown 6) ;;
  col <- get_random_color [34; 139; 34]%Z 25 ;;
  set_face_colors crown col ;;
  stack_on_top trunk crown OVERLAP_AMOUNT ;;
  tree <- concatenate [trunk; crown] ;;
  apply_translation tree pos ;;
  ret tree.

Definition create_stacked_tree (pos : vec3) : M ref :=
  h_trunk <- uniform 2 3 ;;
  trunk <- create_trunk h_trunk 0.7 ;;
  h1 <- uniform 3 5 ;;
  r1 <- uniform 3 4 ;;
  c1 <- new (cone trimesh r1 h1 7) ;;
  col1 <- get_random_color [46; 139; 87]%Z 25 ;;
  set_face_colors c1 col1 ;;
  stack_on_top trunk c1 OVERLAP_AMOUNT ;;
  h2 <- uniform 2 4 ;;
  c2 <- new (cone trimesh 2.0 h2 7) ;;
  col2 <- get_random_color [143; 188; 143]%Z 25 ;;
  set_face_colors c2 col2 ;;
  stack_on_top c1 c2 OVERLAP_AMOUNT ;;
  tree <- concatenate [trunk; c1; c2] ;;
  apply_translation tree pos ;;
  ret tree.

(** The branch of the generation loop taken for the sample [rnd]. *)
Definition select_archetype (rnd : Q) : archetype :=
  if Qlt_le_dec rnd 0.4 then Roundy
  else if Qlt_le_dec rnd 0.75 then Pointy
  else Stacked.

Definition create_tree (a : archetype) (pos : vec3) : M ref :=
  match a with
  | Roundy => create_roundy_tree pos
  | Pointy => create_pointy_tree pos
  | Stacked => create_stacked_tree pos
  end.

(** [np.random.uniform(low, high, (n, 2))]: [n] rows of two samples. *)
Definition uniform_rows (low high : Q) (n : nat) : M (list (Q * Q)) :=
  for_each (fun _ => a <- uniform low high ;; b <- uniform low high ;; ret (a, b))
           (seq 0 n).

(** The body of the generation loop for one row of [positions]. *)
Definition loop_body (row : Q * Q) : M ref :=
  let pos := (row.1, row.2, 0) in
  rnd <- rand ;;
  create_tree (select_archetype rnd) pos.

(** The main block: sample the positions, build one tree per position,
    merge the trees.  In the script [n_trees] and [plot_size] are the values
    of the two sliders (see [tree_count_slider], [plot_size_slider]); Python
    integers too large for a float are not modelled.  (What the library
    returns for an empty list of meshes depends on its version; the results
    below take at least one tree.) *)
Definition generate (n_trees : nat) (plot_size : Z) : M ref :=
  positions <- uniform_rows (- inject_Z plot_size / 2) (inject_Z plot_size / 2) n_trees ;;
  meshes <- for_each loop_body positions ;;
  concatenate meshes.

End Script.

(** ** The figure handed to the viewer *)

Record Mesh3d : Type := mkMesh3d {
  trace_x : list Q;
  trace_y : list Q;
  trace_z : list Q;
  trace_i : list nat;
  trace_j : list nat;
  trace_k : list nat;
  trace_facecolor : option (list color);   (* one colour per face *)
  trace_color : option string;             (* one colour for the trace *)
  trace_flatshading : bool;
  trace_name : string
}.

Definition trees_trace (forest_mesh : Trimesh) : Mesh3d :=
  let vertices := vertices forest_mesh in
  let faces := faces forest_mesh in
  let colors := map (take 3) (face_colors forest_mesh) in
  mkMesh3d (map vx vertices) (map vy vertices) (map vz vertices)
           (map (fun f : face => f.1.1) faces) (map (fun f : face => f.1.2) faces)
           (map (fun f : face => f.2) faces)
           (Some colors) None true "Trees".

Definition ground_trace (plot_size : Z) : Mesh3d :=
  let plot_size := inject_Z plot_size in
  mkMesh3d [- plot_size / 1.8; plot_size / 1.8; plot_size / 1.8; - plot_size / 1.8]
           [- plot_size / 1.8; - plot_size / 1.8; plot_size / 1.8; plot_size / 1.8]
           [-0.1; -0.1; -0.1; -0.1]
           [0; 0]%nat [1; 2]%nat [2; 3]%nat
           None (Some "rgb(160, 200, 120)"%string) true "Ground".

Definition figure (trimesh : Creation) (n_trees : nat) (plot_size : Z) : M (list Mesh3d) :=
  forest_mesh <- generate trimesh n_trees plot_size ;;
  m <- load forest_mesh ;;
  ret [trees_trace m; ground_trace plot_size].

(** ** What the script relies on *)

(** Every raw sample of the generator lies in [0, 1). *)
Definition rng_ok (draws : nat -> Q) : Prop := forall k, 0 <= draws k /\ draws k < 1.

(** [z] is the lowest (highest) Z over the vertices of [m]. *)
Definition lowest_at (m : Trimesh) (z : Q) : Prop :=
  exists z', min_z m = Some z' /\ z' == z.

Definition highest_at (m : Trimesh) (z : Q) : Prop :=
  exists z', max_z m = Some z' /\ z' == z.

(** [z] is the lowest Z of the non-empty vertex array [vs]. *)
Definition lowest_of (vs : list vec3) (z : Q) : Prop :=
  exists z', column_min vz vs = Some z' /\ z' == z.

(** The contract of the library primitives: for positive dimensions and the
    section counts the script passes (5 to 7) they are well-formed solids; the
    cylinder is centred at the origin (the comment of [create_trunk]); a cone
    is as tall as its [height]. *)
Record CreationSpec (L : Creation) : Prop := mkCreationSpec {
  cylinder_well_formed : forall r h s,
    0 < r -> 0 < h -> (5 <= s <= 7)%nat -> well_formed (cylinder L r h s) = true;
  cylinder_centred : forall r h s,
    0 < r -> 0 < h -> (5 <= s <= 7)%nat ->
    lowest_at (cylinder L r h s) (- (h / 2)) /\ highest_at (cylinder L r h s) (h / 2);
  icosphere_well_formed : forall n r,
    0 < r -> well_formed (icosphere L n r) = true;
  cone_well_formed : forall r h s,
    0 < r -> 0 < h -> (5 <= s <= 7)%nat -> well_formed (cone L r h s) = true;
  cone_tall : forall r h s,
    0 < r -> 0 < h -> (5 <= s <= 7)%nat ->
    exists z0, lowest_at (cone L r h s) z0 /\ highest_at (cone L r h s) (z0 + h)
}.

(** One colour per face. *)
Definition color_count_ok (m : Trimesh) : Prop :=
  length (face_colors m) = length (faces m).

(** The mesh [top_mesh] becomes when [stack_on_top] returns. *)
Definition stacked_on (bottom top : Trimesh) (overlap : Q) : Trimesh :=
  match bounds bottom, bounds top with
  | Some bb, Some tb => translate (0, 0, (vz bb.2 - overlap) - vz tb.1) top
  | _, _ => top
  end.

(** ** A rational instance of the primitives

    Right prisms and pyramids over a polygon inscribed in the circle of the
    given radius, and an octahedron for the sphere: coordinates stay rational,
    the contract above holds for them, and the script runs on them.  Their
    numbers of vertices and faces are their own, not the library's. *)

(** [sections] points of the unit circle, by the rational parametrisation. *)
Definition ring (sections : nat) : list (Q * Q) :=
  map (fun k : nat =>
         let t := (inject_Z (2 * Z.of_nat k + 1) - inject_Z (Z.of_nat sections)) / 2 in
         ((1 - t * t) / (1 + t * t), 2 * t / (1 + t * t)))
      (seq 0 sections).

Definition default_color : color := [102; 102; 102; 255]%Z.

Definition with_default_colors (vs : list vec3) (fs : list face) : Trimesh :=
  mkTrimesh vs fs (repeat default_color (length fs)).

Definition prism (radius height : Q) (sections : nat) : Trimesh :=
  let half := height / 2 in
  with_default_colors
    ([(0, 0, - half); (0, 0, half)] ++
     flat_map (fun p : Q * Q => [(radius * p.1, radius * p.2, - half);
                                 (radius * p.1, radius * p.2, half)])
              (ring sections))
    (flat_map (fun k : nat =>
                 let k' := (S k mod sections)%nat in
                 [(0, 2 + 2 * k', 2 + 2 * k); (1, 3 + 2 * k, 3 + 2 * k');
                  (2 + 2 * k, 2 + 2 * k', 3 + 2 * k');
                  (2 + 2 * k, 3 + 2 * k', 3 + 2 * k)]%nat)
              (seq 0 sections)).

Definition pyramid (radius height : Q) (sections : nat) : Trimesh :=
  with_default_colors
    ([(0, 0, 0); (0, 0, height)] ++
     map (fun p : Q * Q => (radius * p.1, radius * p.2, 0)) (ring sections))
    (flat_map (fun k : nat =>
                 let k' := (S k mod sections)%nat in
                 [(0, 2 + k', 2 + k); (2 + k, 2 + k', 1)]%nat)
              (seq 0 sections)).

Definition octahedron (subdivisions : nat) (radius : Q) : Trimesh :=
  with_default_colors
    [(radius, 0, 0); (- radius, 0, 0); (0, radius, 0); (0, - radius, 0);
     (0, 0, radius); (0, 0, - radius)]
    [(0, 2, 4); (2, 1, 4); (1, 3, 4); (3, 0, 4);
     (2, 0, 5); (1, 2, 5); (3, 1, 5); (0, 3, 5)]%nat.

Definition polyhedra : Creation := mkCreation prism octahedron pyramid.

(** A generator whose raw samples cycle through a few values of [0, 1). *)
Definition sample_draws (k : nat) : Q :=
  nth (k mod 5) [0.1; 0.5; 0.9; 0.3; 0.7] 0.

Definition empty_world : World := mkWorld [] sample_draws 0.

(** Two tetrahedra, the second one below the first. *)
Definition tetrahedron (z0 : Q) : Trimesh :=
  mkTrimesh [(0, 0, z0); (1, 0, z0); (0, 1, z0); (0, 0, z0 + 1)]
            [(0, 2, 1); (0, 1, 3); (1, 2, 3); (2, 0, 3)]%nat
            (repeat default_color 4).

Definition two_solids : World := mkWorld [tetrahedron 2; tetrahedron (-3)] sample_draws 0.

(** ** Runs of computations *)

(** [c] started in [w] returns [a] and leaves the world [w']. *)
Definition runs {A : Type} (c : M A) (w : World) (a : A) (w' : World) : Prop :=
  c w = Some (a, w').

(** The world [w] after the objects [added] were created and [k] samples
    were drawn. *)
Definition extended (w : World) (added : list Trimesh) (k : nat) : World :=
  mkWorld (heap w ++ added) (rng_draws w) (rng_pos w + k).

(** ** The meshes the script builds, as functions of the samples drawn *)

(** The channels [get_random_color] computes from the samples at [p], [p+1], ... *)
Fixpoint sampled_channels (base_rgb : list Z) (variance : Z) (d : nat -> Q) (p : nat)
  : list Z :=
  match base_rgb with
  | [] => []
  | c :: base' =>
      clip (c + (- variance + Qfloor (d p * inject_Z (variance - - variance)))) 0 255
        :: sampled_channels base' variance d (S p)
  end.

Definition sampled_color (base_rgb : list Z) (variance : Z) (d : nat -> Q) (p : nat) : color :=
  sampled_channels base_rgb variance d p ++ [255%Z].

Definition sampled_uniform (low high : Q) (d : nat -> Q) (p : nat) : Q :=
  low + (high - low) * d p.

Section Parts.

Variable trimesh : Creation.

Definition trunk_mesh (height radius : Q) : Trimesh :=
  translate (0, 0, height / 2) (paint [101; 67; 33; 255]%Z (cylinder trimesh radius height 5)).

(** Trunk, crown and merged tree of [create_roundy_tree]. *)
Definition roundy_parts (d : nat -> Q) (p : nat) (pos : vec3) : list Trimesh :=
  let h_trunk := sampled_uniform 3 6 d p in
  let r_crown := sampled_uniform 2.5 4.5 d (1 + p) in
  let trunk := trunk_mesh h_trunk 0.7 in
  let crown :=
    stacked_on trunk
      (paint (sampled_color [124; 204; 57]%Z 25 d (2 + p)) (icosphere trimesh 1 r_crown))
      OVERLAP_AMOUNT in
  [trunk; crown; translate pos (merge [trunk; crown])].

(** Trunk, crown and merged tree of [create_pointy_tree]. *)
Definition pointy_parts (d : nat -> Q) (p : nat) (pos : vec3) : list Trimesh :=
  let h_trunk := sampled_uniform 2 4 d p in
  let h_crown := sampled_uniform 6 10 d (1 + p) in
  let r_crown := sampled_uniform 2.5 4.0 d (2 + p) in
  let trunk := trunk_mesh h_trunk 0.6 in
  let crown :=
    stacked_on trunk
      (paint (sampled_color [34; 139; 34]%Z 25 d (3 + p)) (cone trimesh r_crown h_crown 6))
      OVERLAP_AMOUNT in
  [trunk; crown; translate pos (merge [trunk; crown])].

(** Trunk, the two cones and merged tree of [create_stacked_tree]. *)
Definition stacked_parts (d : nat -> Q) (p : nat) (pos : vec3) : list Trimesh :=
  let h_trunk := sampled_uniform 2 3 d p in
  let trunk := trunk_mesh h_trunk 0.7 in
  let h1 := sampled_uniform 3 5 d (1 + p) in
  let r1 := sampled_uniform 3 4 d (2 + p) in
  let c1 :=
    stacked_on trunk
      (paint (sampled_color [46; 139; 87]%Z 25 d (3 + p)) (cone trimesh r1 h1 7))
      OVERLAP_AMOUNT in
  let h2 := sampled_uniform 2 4 d (6 + p) in
  let c2 :=
    stacked_on c1
      (paint (sampled_color [143; 188; 143]%Z 25 d (7 + p)) (cone trimesh 2.0 h2 7))
      OVERLAP_AMOUNT in
  [trunk; c1; c2; translate pos (merge [trunk; c1; c2])].

Definition tree_parts (a : archetype) (d : nat -> Q) (p : nat) (pos : vec3) : list Trimesh :=
  match a with
  | Roundy => roundy_parts d p pos
  | Pointy => pointy_parts d p pos
  | Stacked => stacked_parts d p pos
  end.

(** How many samples a constructor draws. *)
Definition samples_drawn (a : archetype) : nat :=
  match a with
  | Roundy => 5
  | Pointy => 6
  | Stacked => 10
  end.

(** [m] is a tree some constructor returns for the ground position [pos]. *)
Definition built_tree (pos : vec3) (m : Trimesh) : Prop :=
  exists (a : archetype) (w w' : World) (r : ref),
    rng_ok (rng_draws w) /\
    create_tree trimesh a pos w = Some (r, w') /\
    heap w' !! r = Some m.

End Parts.

(** The objects a tree constructor leaves behind for the ground position
    [(x, y, 0)]: a trunk from Z = 0 up to its height, the crown shapes with
    lowest point half a unit below the top of the trunk, and the merged tree
    standing on Z = 0. *)
Definition grounded_tree (parts : list Trimesh) (x y : Q) : Prop :=
  exists (trunk : Trimesh) (shapes : list Trimesh) (tree : Trimesh) (h_trunk : Q),
    parts = trunk :: shapes ++ [tree] /\
    2 <= h_trunk /\
    lowest_at trunk 0 /\ highest_at trunk h_trunk /\
    lowest_of (concat (map vertices shapes)) (h_trunk - 0.5) /\
    0 < h_trunk - 0.5 /\
    Forall (fun s => exists z, lowest_at s z /\ h_trunk - 0.5 <= z) shapes /\
    vertices tree = map (vadd (x, y, 0)) (vertices trunk ++ concat (map vertices shapes)) /\
    lowest_at tree 0.

(** The rows [np.random.uniform(low, high, (n, 2))] returns from the samples
    at [p], [p+1], ... *)
Fixpoint sampled_rows (low high : Q) (d : nat -> Q) (p n : nat) : list (Q * Q) :=
  match n with
  | O => []
  | S n' => (sampled_uniform low high d p, sampled_uniform low high d (1 + p))
              :: sampled_rows low high d (2 + p) n'
  end.

Definition archetype_eqb (a b : archetype) : bool :=
  match a, b with
  | Roundy, Roundy | Pointy, Pointy | Stacked, Stacked => true
  | _, _ => false
  end.

(** How many of the samples [rs] select the archetype [a]. *)
Definition selected (a : archetype) (rs : list Q) : nat :=
  length (filter (fun r => archetype_eqb (select_archetype r) a = true) rs).

(** The hundred samples 0.00, 0.01, ..., 0.99. *)
Definition percent_grid : list Q := map (fun k : nat => inject_Z (Z.of_nat k) / 100) (seq 0 100).

(** [z] is the highest Z of the non-empty vertex array [vs]. *)
Definition highest_of (vs : list vec3) (z : Q) : Prop :=
  exists z', column_max vz vs = Some z' /\ z' == z.

(** A colour channel is a byte. *)
Definition channel_ok (x : Z) : Prop := (0 <= x <= 255)%Z.

(** A solid and a mesh that has vertices but no face. *)
Definition solid_and_points : World :=
  mkWorld [tetrahedron 2; mkTrimesh [(0, 0, 7); (1, 0, 8)] [] []] sample_draws 0.

(** A face colour as the script sets them: four channels, each a byte. *)
Definition rgba_ok (c : color) : Prop := length c = 4%nat /\ Forall channel_ok c.

(** Every face index of [m] is below [n]. *)
Definition indices_below (n : nat) (m : Trimesh) : Prop :=
  Forall (fun f : face => (f.1.1 < n)%nat /\ (f.1.2 < n)%nat /\ (f.2 < n)%nat) (faces m).

(** ** float64 rounding

    The script computes on numpy [float64].  [round64 x] is the binary64
    number nearest to the rational [x], ties to the even significand
    (53-bit significands, subnormals below 2^-1022; overflow to infinity is
    not modelled).  The operations below round after each arithmetic step; at
    the rounding [fun x => x] they are the exact operations above. *)

(** The integer nearest to [t], ties to even. *)
Definition rne (t : Q) : Z :=
  let f := Qfloor t in
  match Qcompare (t - inject_Z f) (1 # 2) with
  | Lt => f
  | Gt => (f + 1)%Z
  | Eq => if Z.even f then f else (f + 1)%Z
  end.

(** The integer part of the binary logarithm of [|x|]. *)
Definition binade (x : Q) : Z :=
  let a := Qabs x in
  if Qle_bool 1 a then Z.log2 (Qfloor a) else (- Z.log2_up (Qceiling (/ a)))%Z.

(** The exponent of the last bit of the significand of [x]. *)
Definition ulp_exponent (x : Q) : Z := Z.max (binade x - 52) (-1074).

Definition round64 (x : Q) : Q :=
  let e := ulp_exponent x in
  Qred (inject_Z (rne (x / 2 ^ e)) * 2 ^ e).

Section Rounded.

Variable fl : Q -> Q.

Definition vadd_rounded (t v : vec3) : vec3 :=
  (fl (vx v + vx t), fl (vy v + vy t), fl (vz v + vz t)).

Definition translate_rounded (t : vec3) (m : Trimesh) : Trimesh :=
  mkTrimesh (map (vadd_rounded t) (vertices m)) (faces m) (face_colors m).

Definition apply_translation_rounded (r : ref) (t : vec3) : M unit :=
  update r (translate_rounded t).

Definition stack_on_top_rounded (bottom_mesh top_mesh : ref) (overlap : Q) : M ref :=
  bb <- get_bounds bottom_mesh ;;
  let bottom_z_max := vz bb.2 in
  tb <- get_bounds top_mesh ;;
  let top_z_min := vz tb.1 in
  let shift_z := fl (fl (bottom_z_max - overlap) - top_z_min) in
  apply_translation_rounded top_mesh (0, 0, shift_z) ;;
  ret top_mesh.

End Rounded.

(** Two solids far from the origin: the first spans Z = 1e16 .. 1e16 + 2,
    the second Z = -3 .. -2 (all of them binary64 numbers). *)
Definition far_solids : World :=
  mkWorld [mkTrimesh [(0, 0, 1e16); (1, 0, 1e16); (0, 1, 1e16); (0, 0, 1e16 + 2)]
                     [(0, 2, 1); (0, 1, 3); (1, 2, 3); (2, 0, 3)]%nat
                     (repeat default_color 4);
           tetrahedron (-3)]
          sample_draws 0.

(** ** The sliders

    [st.slider(label, min_value, max_value, value)]: the only source of the
    script's two inputs. *)
Record Slider : Type := mkSlider { min_value : Z; max_value : Z; value : Z }.

Definition tree_count_slider : Slider := mkSlider 20 300 100.
Definition plot_size_slider : Slider := mkSlider 50 200 120.

(** The values a slider can hand to the script. *)
Definition offers (s : Slider) (v : Z) : Prop := (min_value s <= v <= max_value s)%Z.

(** Each shape starts [OVERLAP_AMOUNT] below the top of the solid it was
    stacked on: the first on [below], every next one on the shape before. *)
Fixpoint stacked_chain (below : Trimesh) (shapes : list Trimesh) : Prop :=
  match shapes with
  | [] => True
  | s :: rest =>
      (exists top, highest_at below top /\ lowest_at s (top - OVERLAP_AMOUNT)) /\
      stacked_chain s rest
  end.

(** ** Minimum and maximum of a column *)

Lemma minimum_shift (s x : Q) (l : list Q) :
  minimum (x + s) (map (fun y => y + s) l) == minimum x l + s.
Proof.
  revert x; induction l as [|y l IH]; intros x; simpl.
  - reflexivity.
  - rewrite IH. apply Q.plus_min_distr_r.
Qed.

Lemma maximum_shift (s x : Q) (l : list Q) :
  maximum (x + s) (map (fun y => y + s) l) == maximum x l + s.
Proof.
  revert x; induction l as [|y l IH]; intros x; simpl.
  - reflexivity.
  - rewrite IH. apply Q.plus_max_distr_r.
Qed.

Lemma minimum_app (x y : Q) (l1 l2 : list Q) :
  minimum x (l1 ++ y :: l2) == Qmin (minimum x l1) (minimum y l2).
Proof.
  revert x; induction l1 as [|a l1 IH]; intros x; simpl.
  - reflexivity.
  - rewrite IH. apply Q.min_assoc.
Qed.

Lemma maximum_app (x y : Q) (l1 l2 : list Q) :
  maximum x (l1 ++ y :: l2) == Qmax (maximum x l1) (maximum y l2).
Proof.
  revert x; induction l1 as [|a l1 IH]; intros x; simpl.
  - reflexivity.
  - rewrite IH. apply Q.max_assoc.
Qed.

Lemma minimum_le_maximum (x : Q) (l : list Q) : minimum x l <= maximum x l.
Proof.
  revert x; induction l as [|y l IH]; intros x; simpl.
  - apply Qle_refl.
  - apply Qle_trans with x; [apply Q.le_min_l | apply Q.le_max_l].
Qed.

(** ** Lowest and highest points of meshes *)

Lemma lowest_at_eq (m : Trimesh) (z z' : Q) : z == z' -> lowest_at m z -> lowest_at m z'.
Proof.
  intros E (y & Hy & Hz). exists y. split; [exact Hy | now rewrite Hz].
Qed.

Lemma highest_at_eq (m : Trimesh) (z z' : Q) : z == z' -> highest_at m z -> highest_at m z'.
Proof.
  intros E (y & Hy & Hz). exists y. split; [exact Hy | now rewrite Hz].
Qed.

Lemma lowest_at_unique (m : Trimesh) (z z' : Q) :
  lowest_at m z -> lowest_at m z' -> z == z'.
Proof.
  intros (y & Hy & E) (y' & Hy' & E'). rewrite Hy in Hy'. injection Hy' as <-.
  now rewrite <- E, <- E'.
Qed.

Lemma highest_at_unique (m : Trimesh) (z z' : Q) :
  highest_at m z -> highest_at m z' -> z == z'.
Proof.
  intros (y & Hy & E) (y' & Hy' & E'). rewrite Hy in Hy'. injection Hy' as <-.
  now rewrite <- E, <- E'.
Qed.

Lemma map_vz_vadd (t : vec3) (vs : list vec3) :
  map vz (map (vadd t) vs) = map (fun y => y + vz t) (map vz vs).
Proof.
  induction vs as [|v vs IH]; simpl; [reflexivity | now rewrite IH].
Qed.

Lemma lowest_at_translate (t : vec3) (m : Trimesh) (z : Q) :
  lowest_at m z -> lowest_at (translate t m) (z + vz t).
Proof.
  intros (y & Hy & E). unfold lowest_at, min_z in *.
  destruct m as [[|v vs] fs cs]; simpl in *; [discriminate|].
  injection Hy as <-. eexists; split; [reflexivity|].
  rewrite map_vz_vadd. change (vz (vadd t v)) with (vz v + vz t).
  rewrite minimum_shift. now rewrite E.
Qed.

Lemma highest_at_translate (t : vec3) (m : Trimesh) (z : Q) :
  highest_at m z -> highest_at (translate t m) (z + vz t).
Proof.
  intros (y & Hy & E). unfold highest_at, max_z in *.
  destruct m as [[|v vs] fs cs]; simpl in *; [discriminate|].
  injection Hy as <-. eexists; split; [reflexivity|].
  rewrite map_vz_vadd. change (vz (vadd t v)) with (vz v + vz t).
  rewrite maximum_shift. now rewrite E.
Qed.

Lemma lowest_at_paint (c : color) (m : Trimesh) (z : Q) :
  lowest_at m z -> lowest_at (paint c m) z.
Proof. exact (fun H => H). Qed.

Lemma highest_at_paint (c : color) (m : Trimesh) (z : Q) :
  highest_at m z -> highest_at (paint c m) z.
Proof. exact (fun H => H). Qed.

Lemma lowest_at_append (a b : Trimesh) (za zb : Q) :
  lowest_at a za -> lowest_at b zb -> lowest_at (append_mesh a b) (Qmin za zb).
Proof.
  intros (ya & Ha & Ea) (yb & Hb & Eb). unfold lowest_at, min_z in *.
  destruct a as [[|v vs] fa ca]; simpl in *; [discriminate|].
  destruct b as [[|u us] fb cb]; simpl in *; [discriminate|].
  injection Ha as <-. injection Hb as <-.
  eexists; split; [reflexivity|].
  rewrite map_app. simpl. rewrite minimum_app. now rewrite Ea, Eb.
Qed.

Lemma lowest_at_append_empty (b : Trimesh) (z : Q) :
  lowest_at b z -> lowest_at (append_mesh empty_mesh b) z.
Proof. exact (fun H => H). Qed.

Lemma lowest_le_highest (m : Trimesh) (zlo zhi : Q) :
  lowest_at m zlo -> highest_at m zhi -> zlo <= zhi.
Proof.
  intros (y & Hy & E) (y' & Hy' & E'). unfold min_z, max_z in *.
  destruct (vertices m) as [|v vs]; simpl in *; [discriminate|].
  injection Hy as <-. injection Hy' as <-. rewrite <- E, <- E'.
  apply minimum_le_maximum.
Qed.

(** ** Bounds of well-formed solids *)

Lemma select_from_all (keep : nat -> bool) (vs : list vec3) (i : nat) :
  forallb keep (seq i (length vs)) = true -> select_from keep i vs = vs.
Proof.
  revert i; induction vs as [|v vs IH]; intros i H; simpl in *; [reflexivity|].
  apply andb_prop in H as [Hk Hr]. rewrite Hk. now rewrite IH.
Qed.

Lemma well_formed_parts (m : Trimesh) :
  well_formed m = true ->
  vertices m <> [] /\ faces_in_range m = true /\ in_mesh m = vertices m.
Proof.
  unfold well_formed. intros H.
  apply andb_prop in H as [H Hall]. apply andb_prop in H as [Hne Hr].
  split; [|split].
  - destruct (vertices m); [discriminate | discriminate].
  - exact Hr.
  - apply select_from_all, Hall.
Qed.

Lemma bounds_well_formed (m : Trimesh) :
  well_formed m = true ->
  exists lo hi, bounds m = Some (lo, hi) /\
                min_z m = Some (vz lo) /\ max_z m = Some (vz hi).
Proof.
  intros H. apply well_formed_parts in H as (Hne & Hr & Hin).
  unfold bounds, min_z, max_z. rewrite Hr, Hin.
  destruct (vertices m) as [|v vs]; [contradiction|].
  eexists; eexists; split; [reflexivity|]. split; reflexivity.
Qed.

Lemma well_formed_paint (c : color) (m : Trimesh) :
  well_formed (paint c m) = well_formed m.
Proof. reflexivity. Qed.

Lemma well_formed_translate (t : vec3) (m : Trimesh) :
  well_formed (translate t m) = well_formed m.
Proof.
  unfold well_formed, faces_in_range, all_referenced. simpl.
  now rewrite length_map.
Qed.

Lemma well_formed_lowest (m : Trimesh) :
  well_formed m = true -> exists z, lowest_at m z.
Proof.
  intros H. destruct (bounds_well_formed m H) as (lo & hi & _ & Hlo & _).
  exists (vz lo), (vz lo). split; [exact Hlo | reflexivity].
Qed.

Lemma well_formed_highest (m : Trimesh) :
  well_formed m = true -> exists z, highest_at m z.
Proof.
  intros H. destruct (bounds_well_formed m H) as (lo & hi & _ & _ & Hhi).
  exists (vz hi), (vz hi). split; [exact Hhi | reflexivity].
Qed.

(** Stacking a well-formed solid on a well-formed solid: the translation and
    the lowest point afterwards. *)
Lemma stacked_on_well_formed (bottom top : Trimesh) (overlap zb zt : Q) :
  well_formed bottom = true -> well_formed top = true ->
  highest_at bottom zb -> lowest_at top zt ->
  exists s, stacked_on bottom top overlap = translate (0, 0, s) top /\
            s == (zb - overlap) - zt /\
            lowest_at (stacked_on bottom top overlap) (zb - overlap) /\
            well_formed (stacked_on bottom top overlap) = true.
Proof.
  intros Wb Wt Hb Ht.
  destruct (bounds_well_formed bottom Wb) as (lob & hib & Bb & _ & Hhi).
  destruct (bounds_well_formed top Wt) as (lot & hit & Bt & Hlo & _).
  unfold stacked_on. rewrite Bb, Bt. simpl.
  assert (Ezb : vz hib == zb).
  { apply (highest_at_unique bottom); [|exact Hb]. now exists (vz hib). }
  assert (Ezt : vz lot == zt).
  { apply (lowest_at_unique top); [|exact Ht]. now exists (vz lot). }
  eexists; split; [reflexivity|]. split; [now rewrite Ezb, Ezt|]. split.
  - eapply lowest_at_eq; [|apply lowest_at_translate; exact Ht].
    change (vz (0, 0, vz hib - overlap - vz lot)) with (vz hib - overlap - vz lot).
    rewrite Ezb, Ezt. ring.
  - now rewrite well_formed_translate.
Qed.

(** ** Running the primitive operations *)

Lemma runs_ret {A : Type} (a : A) (w : World) : runs (ret a) w a w.
Proof. reflexivity. Qed.

Lemma runs_bind {A B : Type} (c : M A) (k : A -> M B) (w w1 w2 : World) (a : A) (b : B) :
  runs c w a w1 -> runs (k a) w1 b w2 -> runs (bind c k) w b w2.
Proof. unfold runs, bind. intros ->. exact (fun H => H). Qed.

Lemma runs_new (m : Trimesh) (w : World) :
  runs (new m) w (length (heap w)) (mkWorld (heap w ++ [m]) (rng_draws w) (rng_pos w)).
Proof. reflexivity. Qed.

Lemma runs_load (r : ref) (m : Trimesh) (w : World) :
  heap w !! r = Some m -> runs (load r) w m w.
Proof. unfold runs, load. now intros ->. Qed.

Lemma runs_update (r : ref) (f : Trimesh -> Trimesh) (m : Trimesh) (w : World) :
  heap w !! r = Some m ->
  runs (update r f) w tt (mkWorld (<[r := f m]> (heap w)) (rng_draws w) (rng_pos w)).
Proof. unfold runs, update. now intros ->. Qed.

Lemma runs_get_bounds (r : ref) (m : Trimesh) (b : vec3 * vec3) (w : World) :
  heap w !! r = Some m -> bounds m = Some b -> runs (get_bounds r) w b w.
Proof.
  intros Hr Hb. unfold get_bounds.
  eapply runs_bind; [apply runs_load, Hr|]. rewrite Hb. apply runs_ret.
Qed.

(** [stack_on_top] on two objects that have bounds: the top object is
    replaced by its translate, nothing else changes. *)
Lemma stack_on_top_runs (w : World) (bottom top : ref) (mb mt : Trimesh) (overlap : Q) :
  heap w !! bottom = Some mb -> heap w !! top = Some mt ->
  well_formed mb = true -> well_formed mt = true ->
  runs (stack_on_top bottom top overlap) w top
       (mkWorld (<[top := stacked_on mb mt overlap]> (heap w)) (rng_draws w) (rng_pos w)).
Proof.
  intros Hb Ht Wb Wt.
  destruct (bounds_well_formed mb Wb) as (lob & hib & Bb & _).
  destruct (bounds_well_formed mt Wt) as (lot & hit & Bt & _).
  unfold stack_on_top.
  eapply runs_bind; [eapply runs_get_bounds; eassumption|].
  eapply runs_bind; [eapply runs_get_bounds; eassumption|].
  eapply runs_bind; [apply runs_update, Ht|].
  unfold stacked_on. rewrite Bb, Bt. apply runs_ret.
Qed.

Lemma Qplus_0_r_eq (x : Q) : x + 0 = x.
Proof.
  destruct x as [a b]. unfold Qplus. simpl.
  rewrite Z.mul_1_r, Z.add_0_r, Pos.mul_1_r. reflexivity.
Qed.

Lemma vertical_translation_xy (s : Q) (vs : list vec3) :
  map vx (map (vadd (0, 0, s)) vs) = map vx vs /\
  map vy (map (vadd (0, 0, s)) vs) = map vy vs /\
  map vz (map (vadd (0, 0, s)) vs) = map (fun z => z + s) (map vz vs).
Proof.
  induction vs as [|v vs (IHx & IHy & IHz)]; simpl; [now repeat split|].
  rewrite IHx, IHy, IHz.
  assert (Ex : vx (vadd (0, 0, s) v) = vx v) by apply Qplus_0_r_eq.
  assert (Ey : vy (vadd (0, 0, s) v) = vy v) by apply Qplus_0_r_eq.
  rewrite Ex, Ey. now repeat split.
Qed.

(** ** Stacking *)

(** C3. [stack_on_top] keeps the X and the Y coordinate of every vertex of
    the top solid; every Z coordinate moves by the same amount, and faces and
    colours stay. *)
Theorem stack_on_top_keeps_xy
    (w : World) (bottom top : ref) (mb mt : Trimesh) (overlap : Q) :
  heap w !! bottom = Some mb -> heap w !! top = Some mt ->
  well_formed mb = true -> well_formed mt = true ->
  exists w' mt' shift_z,
    stack_on_top bottom top overlap w = Some (top, w') /\
    heap w' !! top = Some mt' /\
    map vx (vertices mt') = map vx (vertices mt) /\
    map vy (vertices mt') = map vy (vertices mt) /\
    map vz (vertices mt') = map (fun z => z + shift_z) (map vz (vertices mt)) /\
    faces mt' = faces mt /\ face_colors mt' = face_colors mt.
Proof.
  intros Hb Ht Wb Wt.
  pose proof (stack_on_top_runs w bottom top mb mt overlap Hb Ht Wb Wt) as Hrun.
  destruct (bounds_well_formed mb Wb) as (lob & hib & Bb & _).
  destruct (bounds_well_formed mt Wt) as (lot & hit & Bt & _).
  eexists; exists (stacked_on mb mt overlap), ((vz hib - overlap) - vz lot).
  split; [exact Hrun|]. simpl.
  split; [apply list_lookup_insert_eq; eapply lookup_lt_Some; exact Ht|].
  unfold stacked_on. rewrite Bb, Bt. simpl.
  destruct (vertical_translation_xy (vz hib - overlap - vz lot) (vertices mt))
    as (Hx & Hy & Hz).
  now repeat split.
Qed.

Lemma stack_on_top_keeps_xy_witness :
  exists w' mt' shift_z,
    stack_on_top 0%nat 1%nat 0.5 two_solids = Some (1%nat, w') /\
    heap w' !! 1%nat = Some mt' /\
    map vx (vertices mt') = map vx (vertices (tetrahedron (-3))) /\
    map vy (vertices mt') = map vy (vertices (tetrahedron (-3))) /\
    map vz (vertices mt') = map (fun z => z + shift_z) (map vz (vertices (tetrahedron (-3)))) /\
    faces mt' = faces (tetrahedron (-3)) /\ face_colors mt' = face_colors (tetrahedron (-3)).
Proof.
  apply (stack_on_top_keeps_xy two_solids 0%nat 1%nat (tetrahedron 2) (tetrahedron (-3)) 0.5);
    reflexivity.
Defined.

(** C9. [stack_on_top] on two distinct objects leaves the bottom solid as it
    was (vertices, faces and colours); every object other than the top one is
    untouched, and no object is created. *)
Theorem stack_on_top_keeps_bottom
    (w : World) (bottom top : ref) (mb mt : Trimesh) (overlap : Q) :
  bottom <> top ->
  heap w !! bottom = Some mb -> heap w !! top = Some mt ->
  well_formed mb = true -> well_formed mt = true ->
  exists w',
    stack_on_top bottom top overlap w = Some (top, w') /\
    heap w' !! bottom = Some mb /\
    (forall r, r <> top -> heap w' !! r = heap w !! r) /\
    length (heap w') = length (heap w).
Proof.
  intros Hne Hb Ht Wb Wt.
  pose proof (stack_on_top_runs w bottom top mb mt overlap Hb Ht Wb Wt) as Hrun.
  eexists. split; [exact Hrun|]. simpl. split; [|split].
  - rewrite list_lookup_insert_ne by congruence. exact Hb.
  - intros r Hr. apply list_lookup_insert_ne. congruence.
  - apply length_insert.
Qed.

Lemma stack_on_top_keeps_bottom_witness :
  exists w',
    stack_on_top 0%nat 1%nat 0.5 two_solids = Some (1%nat, w') /\
    heap w' !! 0%nat = Some (tetrahedron 2) /\
    (forall r, r <> 1%nat -> heap w' !! r = heap two_solids !! r) /\
    length (heap w') = length (heap two_solids).
Proof.
  apply (stack_on_top_keeps_bottom two_solids 0%nat 1%nat (tetrahedron 2) (tetrahedron (-3)) 0.5);
    [discriminate | reflexivity | reflexivity | reflexivity | reflexivity].
Defined.

(** Called with one object as both arguments, [stack_on_top] moves it: the
    tetrahedron at Z = 2..3 ends at Z = 2.5..3.5. *)
Example stack_on_top_on_itself :
  match stack_on_top 0%nat 0%nat 0.5 two_solids with
  | Some (_, w') => option_map (fun m => map Qred (map vz (vertices m))) (heap w' !! 0%nat)
                    = Some [5 # 2; 5 # 2; 5 # 2; 7 # 2]
  | None => False
  end.
Proof. vm_compute. reflexivity. Qed.

(** ** Running the script's helpers *)

Lemma lookup_past (h a : list Trimesh) (k : nat) : (h ++ a) !! (length h + k)%nat = a !! k.
Proof.
  rewrite lookup_app_r by lia. f_equal. lia.
Qed.

Lemma runs_new_past (m : Trimesh) (h a : list Trimesh) (d : nat -> Q) (p : nat) :
  runs (new m) (mkWorld (h ++ a) d p) (length h + length a)%nat
       (mkWorld (h ++ (a ++ [m])) d p).
Proof.
  unfold runs, new. simpl. now rewrite length_app, app_assoc.
Qed.

Lemma runs_update_past (f : Trimesh -> Trimesh) (m : Trimesh) (k : nat)
    (h a : list Trimesh) (d : nat -> Q) (p : nat) :
  a !! k = Some m ->
  runs (update (length h + k)%nat f) (mkWorld (h ++ a) d p) tt
       (mkWorld (h ++ <[k := f m]> a) d p).
Proof.
  intros Hk. unfold runs, update. simpl.
  now rewrite lookup_past, Hk, insert_app_r.
Qed.

Lemma runs_uniform (low high : Q) (h : list Trimesh) (d : nat -> Q) (p : nat) :
  runs (uniform low high) (mkWorld h d p) (sampled_uniform low high d p)
       (mkWorld h d (1 + p)).
Proof. reflexivity. Qed.

Lemma runs_rand (h : list Trimesh) (d : nat -> Q) (p : nat) :
  runs rand (mkWorld h d p) (d p) (mkWorld h d (1 + p)).
Proof. reflexivity. Qed.

Lemma runs_randint (low high : Z) (h : list Trimesh) (d : nat -> Q) (p : nat) :
  (low < high)%Z ->
  runs (randint low high) (mkWorld h d p)
       (low + Qfloor (d p * inject_Z (high - low)))%Z (mkWorld h d (1 + p)).
Proof.
  intros H. unfold randint. apply Z.ltb_lt in H. rewrite H. reflexivity.
Qed.

Lemma runs_channels (base_rgb : list Z) (variance : Z)
    (h : list Trimesh) (d : nat -> Q) (p : nat) :
  (0 < variance)%Z ->
  runs (for_each (fun c => d <- randint (- variance) variance ;;
                           ret (clip (c + d) 0 255)) base_rgb)
       (mkWorld h d p) (sampled_channels base_rgb variance d p)
       (mkWorld h d (length base_rgb + p)).
Proof.
  intros Hv. revert p; induction base_rgb as [|c base IH]; intros p; [reflexivity|].
  simpl for_each.
  eapply runs_bind; [eapply runs_bind; [apply runs_randint; lia | apply runs_ret]|].
  eapply runs_bind; [apply IH|].
  simpl. replace (length base + S p)%nat with (S (length base + p)) by lia.
  reflexivity.
Qed.

Lemma runs_get_random_color (base_rgb : list Z) (variance : Z)
    (h : list Trimesh) (d : nat -> Q) (p : nat) :
  (0 < variance)%Z ->
  runs (get_random_color base_rgb variance) (mkWorld h d p)
       (sampled_color base_rgb variance d p) (mkWorld h d (length base_rgb + p)).
Proof.
  intros Hv. unfold get_random_color.
  eapply runs_bind; [now apply runs_channels|]. reflexivity.
Qed.

Lemma runs_stack_on_top_past (kb kt : nat) (mb mt : Trimesh) (overlap : Q)
    (h a : list Trimesh) (d : nat -> Q) (p : nat) :
  a !! kb = Some mb -> a !! kt = Some mt ->
  well_formed mb = true -> well_formed mt = true ->
  runs (stack_on_top (length h + kb)%nat (length h + kt)%nat overlap)
       (mkWorld (h ++ a) d p) (length h + kt)%nat
       (mkWorld (h ++ <[kt := stacked_on mb mt overlap]> a) d p).
Proof.
  intros Hb Ht Wb Wt.
  pose proof (stack_on_top_runs (mkWorld (h ++ a) d p) (length h + kb)%nat
                (length h + kt)%nat mb mt overlap) as H.
  simpl in H. rewrite !lookup_past, insert_app_r in H. now apply H.
Qed.

Lemma runs_for_each_load (rs : list ref) (ms : list Trimesh) (w : World) :
  Forall2 (fun r m => heap w !! r = Some m) rs ms ->
  runs (for_each load rs) w ms w.
Proof.
  induction 1 as [|r m rs ms Hr _ IH]; [reflexivity|].
  simpl for_each.
  eapply runs_bind; [apply runs_load, Hr|].
  eapply runs_bind; [apply IH|]. reflexivity.
Qed.

Lemma runs_concatenate (rs : list ref) (ms : list Trimesh) (w : World) :
  Forall2 (fun r m => heap w !! r = Some m) rs ms ->
  runs (concatenate rs) w (length (heap w))
       (mkWorld (heap w ++ [merge ms]) (rng_draws w) (rng_pos w)).
Proof.
  intros H. unfold concatenate.
  eapply runs_bind; [apply runs_for_each_load, H|]. apply runs_new.
Qed.

Lemma runs_concatenate_past (ks : list nat) (ms : list Trimesh)
    (h a : list Trimesh) (d : nat -> Q) (p : nat) :
  Forall2 (fun k m => a !! k = Some m) ks ms ->
  runs (concatenate (map (fun k => (length h + k)%nat) ks)) (mkWorld (h ++ a) d p)
       (length h + length a)%nat (mkWorld (h ++ (a ++ [merge ms])) d p).
Proof.
  intros H.
  pose proof (runs_concatenate (map (fun k => (length h + k)%nat) ks) ms
                (mkWorld (h ++ a) d p)) as R.
  simpl in R. rewrite length_app, <- app_assoc in R. apply R.
  clear R. induction H as [|k m ks ms Hk _ IH]; simpl; constructor; [|exact IH].
  now rewrite lookup_past.
Qed.

Section Constructors.

Variable trimesh : Creation.

Lemma runs_create_trunk (height radius : Q) (h a : list Trimesh) (d : nat -> Q) (p : nat) :
  runs (create_trunk trimesh height radius) (mkWorld (h ++ a) d p)
       (length h + length a)%nat
       (mkWorld (h ++ (a ++ [trunk_mesh trimesh height radius])) d p).
Proof.
  unfold create_trunk.
  eapply runs_bind; [apply runs_new_past|].
  eapply runs_bind; [apply runs_update_past, list_lookup_middle; reflexivity|].
  eapply runs_bind; [apply runs_update_past|].
  - rewrite insert_app_r_alt, Nat.sub_diag by lia. simpl.
    apply list_lookup_middle. reflexivity.
  - rewrite insert_app_r_alt, Nat.sub_diag by lia. simpl.
    rewrite insert_app_r_alt, Nat.sub_diag by lia. simpl.
    apply runs_ret.
Qed.

End Constructors.

(** ** Sampled dimensions *)

Lemma sampled_uniform_range (low high : Q) (d : nat -> Q) (p : nat) :
  rng_ok d -> low <= high ->
  low <= sampled_uniform low high d p /\ sampled_uniform low high d p <= high.
Proof.
  intros Hd Hlh. destruct (Hd p) as [H0 H1]. unfold sampled_uniform.
  assert (0 <= (high - low) * d p) by (apply Qmult_le_0_compat; lra).
  assert ((high - low) * d p <= (high - low) * 1).
  { rewrite !(Qmult_comm (high - low)). apply Qmult_le_compat_r; lra. }
  split; lra.
Qed.

Section Trunk.

Variable trimesh : Creation.
Hypothesis contract : CreationSpec trimesh.

Lemma trunk_mesh_well_formed (height radius : Q) :
  0 < height -> 0 < radius -> well_formed (trunk_mesh trimesh height radius) = true.
Proof.
  intros Hh Hr. unfold trunk_mesh.
  rewrite well_formed_translate, well_formed_paint.
  apply (cylinder_well_formed _ contract); [assumption | assumption | lia].
Qed.

Lemma trunk_mesh_extent (height radius : Q) :
  0 < height -> 0 < radius ->
  lowest_at (trunk_mesh trimesh height radius) 0 /\
  highest_at (trunk_mesh trimesh height radius) height.
Proof.
  intros Hh Hr.
  destruct (cylinder_centred _ contract radius height 5%nat Hr Hh) as [Hlo Hhi]; [lia|].
  unfold trunk_mesh. split.
  - eapply lowest_at_eq; [|apply lowest_at_translate, lowest_at_paint, Hlo].
    change (vz (0, 0, height / 2)) with (height / 2). field.
  - eapply highest_at_eq; [|apply highest_at_translate, highest_at_paint, Hhi].
    change (vz (0, 0, height / 2)) with (height / 2). field.
Qed.

Lemma trunk_mesh_colors (height radius : Q) :
  face_colors (trunk_mesh trimesh height radius)
  = repeat [101; 67; 33; 255]%Z (length (faces (trunk_mesh trimesh height radius))).
Proof. reflexivity. Qed.

End Trunk.

(** ** The tree constructors compute their parts *)

Section TreeRuns.

Variable trimesh : Creation.
Hypothesis contract : CreationSpec trimesh.
Variable d : nat -> Q.
Hypothesis samples : rng_ok d.

Ltac dimension :=
  match goal with
  | |- 0 < sampled_uniform ?lo ?hi d ?p =>
      let H := fresh in
      assert (H : lo <= hi) by discriminate;
      pose proof (sampled_uniform_range lo hi d p samples H);
      assert (0 < lo) by reflexivity; lra
  | |- 0 < _ => reflexivity
  | |- (_ <= _ <= _)%nat => lia
  end.

Ltac step lem := eapply runs_bind; [lem|].

Lemma painted_sphere_well_formed (c : color) (p : nat) :
  well_formed (paint c (icosphere trimesh 1 (sampled_uniform 2.5 4.5 d p))) = true.
Proof.
  rewrite well_formed_paint. apply (icosphere_well_formed _ contract). dimension.
Qed.

Lemma painted_cone_well_formed (c : color) (r h : Q) (s : nat) :
  0 < r -> 0 < h -> (5 <= s <= 7)%nat -> well_formed (paint c (cone trimesh r h s)) = true.
Proof.
  intros. rewrite well_formed_paint. now apply (cone_well_formed _ contract).
Qed.

Lemma runs_create_roundy_tree (pos : vec3) (h : list Trimesh) (p : nat) :
  runs (create_roundy_tree trimesh pos) (mkWorld h d p) (length h + 2)%nat
       (mkWorld (h ++ roundy_parts trimesh d p pos) d (5 + p)).
Proof.
  replace (mkWorld h d p) with (mkWorld (h ++ []) d p) by now rewrite app_nil_r.
  unfold create_roundy_tree.
  step ltac:(apply runs_uniform).
  step ltac:(apply runs_uniform).
  step ltac:(apply runs_create_trunk).
  step ltac:(apply runs_new_past).
  step ltac:(apply runs_get_random_color; reflexivity).
  step ltac:(apply runs_update_past; reflexivity).
  step ltac:(eapply (runs_stack_on_top_past 0 1);
             [reflexivity | reflexivity
             | apply trunk_mesh_well_formed; [exact contract | dimension | dimension]
             | apply painted_sphere_well_formed]).
  step ltac:(eapply (runs_concatenate_past [0; 1]%nat);
             repeat (constructor; [reflexivity|]); constructor).
  step ltac:(apply runs_update_past; reflexivity).
  reflexivity.
Qed.

Lemma runs_create_pointy_tree (pos : vec3) (h : list Trimesh) (p : nat) :
  runs (create_pointy_tree trimesh pos) (mkWorld h d p) (length h + 2)%nat
       (mkWorld (h ++ pointy_parts trimesh d p pos) d (6 + p)).
Proof.
  replace (mkWorld h d p) with (mkWorld (h ++ []) d p) by now rewrite app_nil_r.
  unfold create_pointy_tree.
  step ltac:(apply runs_uniform).
  step ltac:(apply runs_uniform).
  step ltac:(apply runs_uniform).
  step ltac:(apply runs_create_trunk).
  step ltac:(apply runs_new_past).
  step ltac:(apply runs_get_random_color; reflexivity).
  step ltac:(apply runs_update_past; reflexivity).
  step ltac:(eapply (runs_stack_on_top_past 0 1);
             [reflexivity | reflexivity
             | apply trunk_mesh_well_formed; [exact contract | dimension | dimension]
             | apply painted_cone_well_formed; dimension]).
  step ltac:(eapply (runs_concatenate_past [0; 1]%nat);
             repeat (constructor; [reflexivity|]); constructor).
  step ltac:(apply runs_update_past; reflexivity).
  reflexivity.
Qed.

Lemma first_cone_well_formed (p : nat) :
  well_formed
    (stacked_on (trunk_mesh trimesh (sampled_uniform 2 3 d p) 0.7)
       (paint (sampled_color [46; 139; 87]%Z 25 d (3 + p))
          (cone trimesh (sampled_uniform 3 4 d (2 + p)) (sampled_uniform 3 5 d (1 + p)) 7))
       OVERLAP_AMOUNT) = true.
Proof.
  set (trunk := trunk_mesh _ _ _). set (c1 := paint _ _).
  assert (Wt : well_formed trunk = true)
    by (apply trunk_mesh_well_formed; [exact contract | dimension | dimension]).
  assert (Wc : well_formed c1 = true) by (apply painted_cone_well_formed; dimension).
  destruct (well_formed_highest trunk Wt) as [zb Hb].
  destruct (well_formed_lowest c1 Wc) as [zt Ht].
  now destruct (stacked_on_well_formed trunk c1 OVERLAP_AMOUNT zb zt Wt Wc Hb Ht)
    as (_ & _ & _ & _ & W).
Qed.

Lemma runs_create_stacked_tree (pos : vec3) (h : list Trimesh) (p : nat) :
  runs (create_stacked_tree trimesh pos) (mkWorld h d p) (length h + 3)%nat
       (mkWorld (h ++ stacked_parts trimesh d p pos) d (10 + p)).
Proof.
  replace (mkWorld h d p) with (mkWorld (h ++ []) d p) by now rewrite app_nil_r.
  unfold create_stacked_tree.
  step ltac:(apply runs_uniform).
  step ltac:(apply runs_create_trunk).
  step ltac:(apply runs_uniform).
  step ltac:(apply runs_uniform).
  step ltac:(apply runs_new_past).
  step ltac:(apply runs_get_random_color; reflexivity).
  step ltac:(apply runs_update_past; reflexivity).
  step ltac:(eapply (runs_stack_on_top_past 0 1);
             [reflexivity | reflexivity
             | apply trunk_mesh_well_formed; [exact contract | dimension | dimension]
             | apply painted_cone_well_formed; dimension]).
  step ltac:(apply runs_uniform).
  step ltac:(apply runs_new_past).
  step ltac:(apply runs_get_random_color; reflexivity).
  step ltac:(apply runs_update_past; reflexivity).
  step ltac:(eapply (runs_stack_on_top_past 1 2);
             [reflexivity | reflexivity
             | apply first_cone_well_formed
             | apply painted_cone_well_formed; dimension]).
  step ltac:(eapply (runs_concatenate_past [0; 1; 2]%nat);
             repeat (constructor; [reflexivity|]); constructor).
  step ltac:(apply runs_update_past; reflexivity).
  reflexivity.
Qed.

Lemma runs_create_tree (a : archetype) (pos : vec3) (h : list Trimesh) (p : nat) :
  runs (create_tree trimesh a pos) (mkWorld h d p)
       (length h + pred (length (tree_parts trimesh a d p pos)))%nat
       (mkWorld (h ++ tree_parts trimesh a d p pos) d (samples_drawn a + p)).
Proof.
  destruct a; simpl.
  - apply runs_create_roundy_tree.
  - apply runs_create_pointy_tree.
  - apply runs_create_stacked_tree.
Qed.

End TreeRuns.

(** ** Merged meshes *)

Lemma lowest_of_eq (vs : list vec3) (z z' : Q) : z == z' -> lowest_of vs z -> lowest_of vs z'.
Proof.
  intros E (y & Hy & Hz). exists y. split; [exact Hy | now rewrite Hz].
Qed.

Lemma lowest_of_app (l1 l2 : list vec3) (z1 z2 : Q) :
  lowest_of l1 z1 -> lowest_of l2 z2 -> lowest_of (l1 ++ l2) (Qmin z1 z2).
Proof.
  intros H1 H2.
  exact (lowest_at_append (mkTrimesh l1 [] []) (mkTrimesh l2 [] []) z1 z2 H1 H2).
Qed.

Lemma lowest_of_translate (t : vec3) (l : list vec3) (z : Q) :
  lowest_of l z -> lowest_of (map (vadd t) l) (z + vz t).
Proof.
  intros H. exact (lowest_at_translate t (mkTrimesh l [] []) z H).
Qed.

Lemma vertices_fold_append (ms : list Trimesh) (acc : Trimesh) :
  vertices (fold_left append_mesh ms acc) = vertices acc ++ concat (map vertices ms).
Proof.
  revert acc; induction ms as [|m ms IH]; intros acc; simpl.
  - now rewrite app_nil_r.
  - rewrite IH. simpl. now rewrite app_assoc.
Qed.

Lemma vertices_merge (ms : list Trimesh) :
  vertices (merge ms) = concat (map vertices ms).
Proof. unfold merge. now rewrite vertices_fold_append. Qed.

Lemma color_count_ok_paint (c : color) (m : Trimesh) : color_count_ok (paint c m).
Proof. unfold color_count_ok. simpl. apply repeat_length. Qed.

Lemma color_count_ok_translate (t : vec3) (m : Trimesh) :
  color_count_ok m -> color_count_ok (translate t m).
Proof. exact (fun H => H). Qed.

Lemma color_count_ok_stacked_on (bottom top : Trimesh) (overlap : Q) :
  color_count_ok top -> color_count_ok (stacked_on bottom top overlap).
Proof.
  intros H. unfold stacked_on.
  destruct (bounds bottom); [|exact H]. destruct (bounds top); exact H.
Qed.

Lemma color_count_ok_append (a b : Trimesh) :
  color_count_ok a -> color_count_ok b -> color_count_ok (append_mesh a b).
Proof.
  unfold color_count_ok. simpl. intros Ha Hb.
  rewrite !length_app, length_map. congruence.
Qed.

Lemma color_count_ok_fold (ms : list Trimesh) (acc : Trimesh) :
  color_count_ok acc -> Forall color_count_ok ms ->
  color_count_ok (fold_left append_mesh ms acc).
Proof.
  intros Ha H. revert acc Ha. induction H as [|m ms Hm _ IH]; intros acc Ha; simpl.
  - exact Ha.
  - apply IH. now apply color_count_ok_append.
Qed.

Lemma color_count_ok_merge (ms : list Trimesh) :
  Forall color_count_ok ms -> color_count_ok (merge ms).
Proof. apply color_count_ok_fold. reflexivity. Qed.

(** A trunk standing on Z = 0 merged with shapes that lie above it, moved to
    a ground position: the lowest point stays on Z = 0. *)
Lemma assembled_tree_lowest (trunk : Trimesh) (shapes : list Trimesh) (x y c : Q) :
  lowest_at trunk 0 -> lowest_of (concat (map vertices shapes)) c -> 0 <= c ->
  vertices (translate (x, y, 0) (merge (trunk :: shapes)))
    = map (vadd (x, y, 0)) (vertices trunk ++ concat (map vertices shapes)) /\
  lowest_at (translate (x, y, 0) (merge (trunk :: shapes))) 0.
Proof.
  intros Ht Hs Hc.
  assert (E : vertices (translate (x, y, 0) (merge (trunk :: shapes)))
              = map (vadd (x, y, 0)) (vertices trunk ++ concat (map vertices shapes))).
  { simpl. now rewrite vertices_merge. }
  split; [exact E|].
  unfold lowest_at, min_z. rewrite E.
  apply (lowest_of_eq _ (Qmin 0 c + vz (x, y, 0))).
  - change (vz (x, y, 0)) with 0. rewrite Q.min_l by exact Hc. ring.
  - apply lowest_of_translate, lowest_of_app; assumption.
Qed.

Lemma stacked_on_extent (bottom top : Trimesh) (overlap zb zlo zhi : Q) :
  well_formed bottom = true -> well_formed top = true ->
  highest_at bottom zb -> lowest_at top zlo -> highest_at top zhi ->
  lowest_at (stacked_on bottom top overlap) (zb - overlap) /\
  highest_at (stacked_on bottom top overlap) (zb - overlap + (zhi - zlo)) /\
  well_formed (stacked_on bottom top overlap) = true.
Proof.
  intros Wb Wt Hb Hlo Hhi.
  destruct (stacked_on_well_formed bottom top overlap zb zlo Wb Wt Hb Hlo)
    as (s & Es & Hs & Hl & W).
  split; [exact Hl|]. split; [|exact W].
  rewrite Es. eapply highest_at_eq; [|apply highest_at_translate, Hhi].
  change (vz (0, 0, s)) with s. rewrite Hs. ring.
Qed.

(** ** The parts of each archetype *)

Lemma one_shape_crown (crown : Trimesh) (c : Q) :
  lowest_at crown c ->
  lowest_of (concat (map vertices [crown])) c /\
  Forall (fun s => exists z, lowest_at s z /\ c <= z) [crown].
Proof.
  intros H. split.
  - simpl. rewrite app_nil_r. exact H.
  - constructor; [|constructor]. exists c. split; [exact H | apply Qle_refl].
Qed.

Lemma two_shape_crown (c1 c2 : Trimesh) (c z2 : Q) :
  lowest_at c1 c -> lowest_at c2 z2 -> c <= z2 ->
  lowest_of (concat (map vertices [c1; c2])) c /\
  Forall (fun s => exists z, lowest_at s z /\ c <= z) [c1; c2].
Proof.
  intros H1 H2 Hle. split.
  - simpl. rewrite app_nil_r. apply (lowest_of_eq _ (Qmin c z2)).
    + now apply Q.min_l.
    + now apply lowest_of_app.
  - constructor; [|constructor; [|constructor]].
    + exists c. split; [exact H1 | apply Qle_refl].
    + exists z2. split; [exact H2 | exact Hle].
Qed.

Section Parts_facts.

Variable trimesh : Creation.
Hypothesis contract : CreationSpec trimesh.
Variable d : nat -> Q.
Hypothesis samples : rng_ok d.

Ltac dimension :=
  match goal with
  | |- 0 < sampled_uniform ?lo ?hi d ?p =>
      let H := fresh in
      assert (H : lo <= hi) by discriminate;
      pose proof (sampled_uniform_range lo hi d p samples H);
      assert (0 < lo) by reflexivity; lra
  | |- 0 < _ => reflexivity
  | |- (_ <= _ <= _)%nat => lia
  end.

Ltac range lo hi p Hr :=
  let H := fresh in
  assert (H : lo <= hi) by discriminate;
  pose proof (sampled_uniform_range lo hi d p samples H) as Hr; clear H.

Lemma roundy_parts_grounded (p : nat) (x y : Q) :
  grounded_tree (roundy_parts trimesh d p (x, y, 0)) x y.
Proof.
  unfold roundy_parts.
  set (h := sampled_uniform 3 6 d p). set (trunk := trunk_mesh trimesh h 0.7).
  set (crown0 := paint _ _). set (crown := stacked_on trunk crown0 OVERLAP_AMOUNT).
  range 3 6 p Hh. fold h in Hh.
  assert (Wt : well_formed trunk = true)
    by (apply trunk_mesh_well_formed; [exact contract | lra | reflexivity]).
  assert (Wc : well_formed crown0 = true).
  { unfold crown0. rewrite well_formed_paint.
    apply (icosphere_well_formed _ contract). dimension. }
  destruct (trunk_mesh_extent trimesh contract h 0.7) as [Tlo Thi]; [lra | reflexivity |].
  fold trunk in Tlo, Thi.
  destruct (well_formed_lowest crown0 Wc) as [zt Ht].
  destruct (stacked_on_well_formed trunk crown0 OVERLAP_AMOUNT h zt Wt Wc Thi Ht)
    as (_ & _ & _ & Hlow & _). fold crown in Hlow.
  change (h - OVERLAP_AMOUNT) with (h - 0.5) in Hlow.
  destruct (one_shape_crown crown (h - 0.5) Hlow) as [Hc Hall].
  destruct (assembled_tree_lowest trunk [crown] x y (h - 0.5) Tlo Hc) as [Ev Hl]; [lra|].
  exists trunk, [crown], (translate (x, y, 0) (merge [trunk; crown])), h.
  split; [reflexivity|]. split; [lra|]. split; [exact Tlo|]. split; [exact Thi|].
  split; [exact Hc|]. split; [lra|]. split; [exact Hall|]. split; [exact Ev | exact Hl].
Qed.

Lemma pointy_parts_grounded (p : nat) (x y : Q) :
  grounded_tree (pointy_parts trimesh d p (x, y, 0)) x y.
Proof.
  unfold pointy_parts.
  set (h := sampled_uniform 2 4 d p). set (trunk := trunk_mesh trimesh h 0.6).
  set (crown0 := paint _ _). set (crown := stacked_on trunk crown0 OVERLAP_AMOUNT).
  range 2 4 p Hh. fold h in Hh.
  assert (Wt : well_formed trunk = true)
    by (apply trunk_mesh_well_formed; [exact contract | lra | reflexivity]).
  assert (Wc : well_formed crown0 = true).
  { unfold crown0. rewrite well_formed_paint.
    apply (cone_well_formed _ contract); dimension. }
  destruct (trunk_mesh_extent trimesh contract h 0.6) as [Tlo Thi]; [lra | reflexivity |].
  fold trunk in Tlo, Thi.
  destruct (well_formed_lowest crown0 Wc) as [zt Ht].
  destruct (stacked_on_well_formed trunk crown0 OVERLAP_AMOUNT h zt Wt Wc Thi Ht)
    as (_ & _ & _ & Hlow & _). fold crown in Hlow.
  change (h - OVERLAP_AMOUNT) with (h - 0.5) in Hlow.
  destruct (one_shape_crown crown (h - 0.5) Hlow) as [Hc Hall].
  destruct (assembled_tree_lowest trunk [crown] x y (h - 0.5) Tlo Hc) as [Ev Hl]; [lra|].
  exists trunk, [crown], (translate (x, y, 0) (merge [trunk; crown])), h.
  split; [reflexivity|]. split; [lra|]. split; [exact Tlo|]. split; [exact Thi|].
  split; [exact Hc|]. split; [lra|]. split; [exact Hall|]. split; [exact Ev | exact Hl].
Qed.

Lemma stacked_parts_grounded (p : nat) (x y : Q) :
  grounded_tree (stacked_parts trimesh d p (x, y, 0)) x y /\
  exists c1 c2 top1,
    stacked_parts trimesh d p (x, y, 0) !! 1%nat = Some c1 /\
    stacked_parts trimesh d p (x, y, 0) !! 2%nat = Some c2 /\
    highest_at c1 top1 /\ lowest_at c2 (top1 - 0.5).
Proof.
  unfold stacked_parts.
  set (h := sampled_uniform 2 3 d p). set (trunk := trunk_mesh trimesh h 0.7).
  set (h1 := sampled_uniform 3 5 d (1 + p)). set (r1 := sampled_uniform 3 4 d (2 + p)).
  set (k1 := paint _ (cone trimesh r1 h1 7)).
  set (c1 := stacked_on trunk k1 OVERLAP_AMOUNT).
  set (h2 := sampled_uniform 2 4 d (6 + p)).
  set (k2 := paint _ (cone trimesh 2.0 h2 7)).
  set (c2 := stacked_on c1 k2 OVERLAP_AMOUNT).
  range 2 3 p Hh. fold h in Hh. range 3 5 (1 + p)%nat Hh1. fold h1 in Hh1.
  assert (Wt : well_formed trunk = true)
    by (apply trunk_mesh_well_formed; [exact contract | lra | reflexivity]).
  assert (P1 : 0 < h1) by lra.
  assert (R1 : 0 < r1) by (unfold r1; dimension).
  assert (P2 : 0 < h2) by (unfold h2; dimension).
  assert (W1 : well_formed k1 = true).
  { unfold k1. rewrite well_formed_paint.
    apply (cone_well_formed _ contract); [exact R1 | exact P1 | lia]. }
  assert (W2 : well_formed k2 = true).
  { unfold k2. rewrite well_formed_paint.
    apply (cone_well_formed _ contract); [reflexivity | exact P2 | lia]. }
  destruct (trunk_mesh_extent trimesh contract h 0.7) as [Tlo Thi]; [lra | reflexivity |].
  fold trunk in Tlo, Thi.
  destruct (cone_tall _ contract r1 h1 7%nat R1 P1) as (z0 & K1lo & K1hi); [lia|].
  destruct (stacked_on_extent trunk k1 OVERLAP_AMOUNT h z0 (z0 + h1) Wt W1 Thi)
    as (C1lo & C1hi & WC1); [exact K1lo | exact K1hi |]. fold c1 in C1lo, C1hi, WC1.
  destruct (well_formed_lowest k2 W2) as [zt Ht].
  destruct (stacked_on_well_formed c1 k2 OVERLAP_AMOUNT _ zt WC1 W2 C1hi Ht)
    as (_ & _ & _ & C2lo & _). fold c2 in C2lo.
  change OVERLAP_AMOUNT with 0.5 in C1lo, C1hi, C2lo.
  destruct (two_shape_crown c1 c2 (h - 0.5) _ C1lo C2lo) as [Hc Hall]; [lra|].
  destruct (assembled_tree_lowest trunk [c1; c2] x y (h - 0.5) Tlo Hc) as [Ev Hl]; [lra|].
  split.
  - exists trunk, [c1; c2], (translate (x, y, 0) (merge [trunk; c1; c2])), h.
    split; [reflexivity|]. split; [lra|]. split; [exact Tlo|]. split; [exact Thi|].
    split; [exact Hc|]. split; [lra|]. split; [exact Hall|]. split; [exact Ev | exact Hl].
  - exists c1, c2, (h - 0.5 + (z0 + h1 - z0)).
    split; [reflexivity|]. split; [reflexivity|]. split; [exact C1hi | exact C2lo].
Qed.

Lemma tree_parts_grounded (a : archetype) (p : nat) (x y : Q) :
  grounded_tree (tree_parts trimesh a d p (x, y, 0)) x y.
Proof.
  destruct a; simpl.
  - apply roundy_parts_grounded.
  - apply pointy_parts_grounded.
  - apply stacked_parts_grounded.
Qed.

End Parts_facts.

(** One colour per face in every object a constructor leaves behind. *)
Lemma tree_parts_color_count (trimesh : Creation) (a : archetype) (d : nat -> Q)
    (p : nat) (pos : vec3) :
  Forall color_count_ok (tree_parts trimesh a d p pos).
Proof.
  assert (T : forall h r, color_count_ok (trunk_mesh trimesh h r)).
  { intros. apply color_count_ok_translate, color_count_ok_paint. }
  assert (S : forall b c m o, color_count_ok (stacked_on b (paint c m) o)).
  { intros. apply color_count_ok_stacked_on, color_count_ok_paint. }
  destruct a; simpl; unfold roundy_parts, pointy_parts, stacked_parts;
    repeat match goal with
           | |- Forall _ (_ :: _) => constructor
           | |- Forall _ [] => constructor
           | |- color_count_ok (trunk_mesh _ _ _) => apply T
           | |- color_count_ok (stacked_on _ (paint _ _) _) => apply S
           | |- color_count_ok (translate _ _) => apply color_count_ok_translate
           | |- color_count_ok (merge _) => apply color_count_ok_merge
           end.
Qed.

(** ** The generation loop *)

Lemma runs_uniform_rows_from (low high : Q) (h : list Trimesh) (d : nat -> Q)
    (n s p : nat) :
  runs (for_each (fun _ : nat => a <- uniform low high ;; b <- uniform low high ;;
                                 ret (a, b)) (seq s n))
       (mkWorld h d p) (sampled_rows low high d p n) (mkWorld h d (2 * n + p)).
Proof.
  revert s p; induction n as [|n IH]; intros s p; [reflexivity|].
  simpl seq. simpl for_each.
  eapply runs_bind; [reflexivity|].
  eapply runs_bind; [apply IH|].
  replace (2 * S n + p)%nat with (2 * n + S (S p))%nat by lia. reflexivity.
Qed.

Lemma runs_uniform_rows (low high : Q) (h : list Trimesh) (d : nat -> Q) (n p : nat) :
  runs (uniform_rows low high n) (mkWorld h d p)
       (sampled_rows low high d p n) (mkWorld h d (2 * n + p)).
Proof. apply runs_uniform_rows_from. Qed.

Lemma length_sampled_rows (low high : Q) (d : nat -> Q) (p n : nat) :
  length (sampled_rows low high d p n) = n.
Proof.
  revert p; induction n as [|n IH]; intros p; simpl; [reflexivity | now rewrite IH].
Qed.

Lemma last_of_parts (parts : list Trimesh) (x y : Q) :
  grounded_tree parts x y ->
  exists tree, parts !! pred (length parts) = Some tree /\ lowest_at tree 0.
Proof.
  intros (trunk & shapes & tree & h & E & _ & _ & _ & _ & _ & _ & _ & Hl).
  exists tree. split; [|exact Hl].
  rewrite <- last_lookup, E.
  change (trunk :: shapes ++ [tree]) with ((trunk :: shapes) ++ [tree]).
  apply last_snoc.
Qed.

Section Loop.

Variable trimesh : Creation.
Hypothesis contract : CreationSpec trimesh.
Variable d : nat -> Q.
Hypothesis samples : rng_ok d.

(** One turn of the loop: the objects of one tree are created, the tree
    stands on Z = 0 and has one colour per face. *)
Lemma runs_loop_body (row : Q * Q) (h : list Trimesh) (p : nat) :
  exists (r : ref) (parts : list Trimesh) (tree : Trimesh) (p' : nat),
    runs (loop_body trimesh row) (mkWorld h d p) r (mkWorld (h ++ parts) d p') /\
    (h ++ parts) !! r = Some tree /\
    grounded_tree parts row.1 row.2 /\
    Forall color_count_ok parts /\
    built_tree trimesh (row.1, row.2, 0) tree /\
    lowest_at tree 0 /\ color_count_ok tree.
Proof.
  set (a := select_archetype (d p)).
  set (parts := tree_parts trimesh a d (1 + p) (row.1, row.2, 0)).
  pose proof (tree_parts_grounded trimesh contract d samples a (1 + p) row.1 row.2) as G.
  fold parts in G.
  destruct (last_of_parts parts _ _ G) as (tree & Hlast & Hlow).
  pose proof (runs_create_tree trimesh contract d samples a (row.1, row.2, 0) h (1 + p))
    as R. fold parts in R.
  assert (Hr : (h ++ parts) !! (length h + pred (length parts))%nat = Some tree)
    by now rewrite lookup_past.
  pose proof (tree_parts_color_count trimesh a d (1 + p) (row.1, row.2, 0)) as C.
  fold parts in C.
  exists (length h + pred (length parts))%nat, parts, tree, (samples_drawn a + (1 + p))%nat.
  split; [|split; [exact Hr|split; [exact G|split; [exact C|split; [|split]]]]].
  - unfold loop_body. eapply runs_bind; [apply runs_rand|]. exact R.
  - exists a, (mkWorld h d (1 + p)), (mkWorld (h ++ parts) d (samples_drawn a + (1 + p))),
      (length h + pred (length parts))%nat.
    split; [exact samples|]. split; [exact R | exact Hr].
  - exact Hlow.
  - rewrite Forall_forall in C. apply C.
    eapply list_elem_of_lookup_2. exact Hlast.
Qed.

Lemma runs_loop (rows : list (Q * Q)) (h : list Trimesh) (p : nat) :
  exists (refs : list ref) (added trees : list Trimesh) (p' : nat),
    runs (for_each (loop_body trimesh) rows) (mkWorld h d p) refs
         (mkWorld (h ++ added) d p') /\
    Forall2 (fun r m => (h ++ added) !! r = Some m) refs trees /\
    Forall2 (fun row m => built_tree trimesh (row.1, row.2, 0) m /\
                          lowest_at m 0 /\ color_count_ok m) rows trees /\
    Forall color_count_ok added.
Proof.
  revert h p; induction rows as [|row rows IH]; intros h p.
  - exists [], [], [], p. rewrite app_nil_r. repeat split; constructor.
  - destruct (runs_loop_body row h p)
      as (r & parts & tree & p1 & R1 & Hr & _ & C1 & B & L & K).
    destruct (IH (h ++ parts) p1) as (refs & added & trees & p2 & R2 & F & G & C2).
    exists (r :: refs), (parts ++ added), (tree :: trees), p2.
    rewrite app_assoc. split; [|split; [|split]].
    + simpl for_each. eapply runs_bind; [exact R1|].
      eapply runs_bind; [exact R2|]. reflexivity.
    + constructor; [|exact F]. now apply lookup_app_l_Some.
    + constructor; [|exact G]. now repeat split.
    + apply Forall_app. now split.
Qed.

(** The main block, for any tree count and plot size: it returns a new
    object, the merge of one tree per position. *)
Lemma runs_generate (n_trees : nat) (plot_size : Z) (h : list Trimesh) (p : nat) :
  exists (added trees : list Trimesh) (rows : list (Q * Q)) (p' : nat),
    runs (generate trimesh n_trees plot_size) (mkWorld h d p) (length (h ++ added))
         (mkWorld ((h ++ added) ++ [merge trees]) d p') /\
    length rows = n_trees /\
    Forall2 (fun row m => built_tree trimesh (row.1, row.2, 0) m /\
                          lowest_at m 0 /\ color_count_ok m) rows trees /\
    Forall color_count_ok added.
Proof.
  set (rows := sampled_rows (- inject_Z plot_size / 2) (inject_Z plot_size / 2) d p n_trees).
  destruct (runs_loop rows h (2 * n_trees + p)) as (refs & added & trees & p' & R & F & G & C).
  exists added, trees, rows, p'. split; [|split; [|split]].
  - unfold generate.
    eapply runs_bind; [apply runs_uniform_rows|]. fold rows.
    eapply runs_bind; [exact R|].
    apply (runs_concatenate refs trees (mkWorld (h ++ added) d p')). exact F.
  - apply length_sampled_rows.
  - exact G.
  - exact C.
Qed.

End Loop.

(** ** The rational primitives meet the contract *)

Lemma minimum_glb (lo x : Q) (l : list Q) :
  lo <= x -> Forall (Qle lo) l -> lo <= minimum x l.
Proof.
  intros Hx H. revert x Hx. induction H as [|y l Hy _ IH]; intros x Hx; simpl.
  - exact Hx.
  - apply Q.min_glb; [exact Hx | now apply IH].
Qed.

Lemma maximum_lub (hi x : Q) (l : list Q) :
  x <= hi -> Forall (fun y => y <= hi) l -> maximum x l <= hi.
Proof.
  intros Hx H. revert x Hx. induction H as [|y l Hy _ IH]; intros x Hx; simpl.
  - exact Hx.
  - apply Q.max_lub; [exact Hx | now apply IH].
Qed.

Lemma minimum_le_elem (x y : Q) (l : list Q) : In y (x :: l) -> minimum x l <= y.
Proof.
  revert x; induction l as [|a l IH]; intros x [<-|Hin]; simpl.
  - apply Qle_refl.
  - destruct Hin.
  - apply Q.le_min_l.
  - eapply Qle_trans; [apply Q.le_min_r | now apply IH].
Qed.

Lemma maximum_ge_elem (x y : Q) (l : list Q) : In y (x :: l) -> y <= maximum x l.
Proof.
  revert x; induction l as [|a l IH]; intros x [<-|Hin]; simpl.
  - apply Qle_refl.
  - destruct Hin.
  - apply Q.le_max_l.
  - apply Qle_trans with (maximum a l); [now apply IH | apply Q.le_max_r].
Qed.

Lemma extent_of_column (m : Trimesh) (lo hi : Q) :
  Forall (fun z => lo <= z /\ z <= hi) (map vz (vertices m)) ->
  In lo (map vz (vertices m)) -> In hi (map vz (vertices m)) ->
  lowest_at m lo /\ highest_at m hi.
Proof.
  unfold lowest_at, highest_at, min_z, max_z.
  destruct (vertices m) as [|v vs]; simpl; [intros _ []|].
  intros H Hlo Hhi. apply Forall_cons in H as [[Hv1 Hv2] H].
  split; eexists; (split; [reflexivity|]); apply Qle_antisym.
  - now apply minimum_le_elem.
  - apply minimum_glb; [exact Hv1|]. eapply Forall_impl; [exact H|]. now intros z [? ?].
  - apply maximum_lub; [exact Hv2|]. eapply Forall_impl; [exact H|]. now intros z [? ?].
  - now apply maximum_ge_elem.
Qed.

Lemma half_above_opposite (h : Q) : 0 < h -> - (h / 2) <= h / 2.
Proof.
  intros Hh. assert (E : h / 2 == h * (1 # 2)) by field. rewrite E. lra.
Qed.

Lemma prism_extent (r h : Q) (s : nat) :
  0 < h -> lowest_at (prism r h s) (- (h / 2)) /\ highest_at (prism r h s) (h / 2).
Proof.
  intros Hh.
  assert (E : map vz (vertices (prism r h s))
              = - (h / 2) :: h / 2 :: flat_map (fun _ => [- (h / 2); h / 2]) (ring s)).
  { unfold prism. simpl. do 2 f_equal.
    induction (ring s) as [|q l IH]; simpl; [reflexivity | now rewrite IH]. }
  apply extent_of_column; rewrite E; clear E.
  - assert (B : - (h / 2) <= h / 2) by now apply half_above_opposite.
    constructor; [split; [apply Qle_refl | exact B]|].
    constructor; [split; [exact B | apply Qle_refl]|].
    induction (ring s) as [|q l IH]; simpl; [constructor|].
    constructor; [split; [apply Qle_refl | exact B]|].
    constructor; [split; [exact B | apply Qle_refl]|]. exact IH.
  - now left.
  - right. now left.
Qed.

Lemma pyramid_extent (r h : Q) (s : nat) :
  0 < h -> lowest_at (pyramid r h s) 0 /\ highest_at (pyramid r h s) h.
Proof.
  intros Hh.
  assert (E : map vz (vertices (pyramid r h s)) = 0 :: h :: map (fun _ => 0) (ring s)).
  { unfold pyramid. simpl. do 2 f_equal.
    induction (ring s) as [|q l IH]; simpl; [reflexivity | now rewrite IH]. }
  apply extent_of_column; rewrite E; clear E.
  - assert (B : 0 <= h) by lra.
    constructor; [split; [apply Qle_refl | exact B]|].
    constructor; [split; [exact B | apply Qle_refl]|].
    induction (ring s) as [|q l IH]; simpl; [constructor|].
    constructor; [split; [apply Qle_refl | exact B]|]. exact IH.
  - now left.
  - right. now left.
Qed.

Lemma polyhedra_contract : CreationSpec polyhedra.
Proof.
  constructor; simpl.
  - intros r h s _ _ Hs.
    assert (C : s = 5%nat \/ s = 6%nat \/ s = 7%nat) by lia.
    destruct C as [->|[->| ->]]; reflexivity.
  - intros r h s _ Hh _. now apply prism_extent.
  - reflexivity.
  - intros r h s _ _ Hs.
    assert (C : s = 5%nat \/ s = 6%nat \/ s = 7%nat) by lia.
    destruct C as [->|[->| ->]]; reflexivity.
  - intros r h s _ Hh _. exists 0.
    destruct (pyramid_extent r h s Hh) as [Hlo Hhi]. split; [exact Hlo|].
    eapply highest_at_eq; [|exact Hhi]. ring.
Qed.

Lemma sample_draws_ok : rng_ok sample_draws.
Proof.
  intros k. unfold sample_draws.
  assert (B : (k mod 5 < 5)%nat) by (apply Nat.mod_upper_bound; discriminate).
  destruct (k mod 5)%nat as [|[|[|[|[|n]]]]]; simpl; try (split; [discriminate | reflexivity]).
  lia.
Qed.

Lemma face_colors_fold_append (ms : list Trimesh) (acc : Trimesh) :
  face_colors (fold_left append_mesh ms acc)
  = face_colors acc ++ concat (map face_colors ms).
Proof.
  revert acc; induction ms as [|m ms IH]; intros acc; simpl.
  - now rewrite app_nil_r.
  - rewrite IH. simpl. now rewrite app_assoc.
Qed.

Lemma face_colors_merge (ms : list Trimesh) :
  face_colors (merge ms) = concat (map face_colors ms).
Proof. unfold merge. now rewrite face_colors_fold_append. Qed.

Lemma above_lowest (m : Trimesh) (z : Q) :
  lowest_at m z -> Forall (fun v => z <= vz v) (vertices m).
Proof.
  intros (z' & Hz & E). unfold min_z in Hz.
  destruct (vertices m) as [|v vs] eqn:Ev; [constructor|].
  simpl in Hz. injection Hz as <-.
  apply List.Forall_forall. intros u Hu. rewrite <- E.
  apply minimum_le_elem. change (In (vz u) (map vz (v :: vs))). now apply in_map.
Qed.

Lemma above_ground_merge (trees : list Trimesh) :
  Forall (fun m => lowest_at m 0) trees ->
  Forall (fun v => 0 <= vz v) (vertices (merge trees)).
Proof.
  intros H. rewrite vertices_merge.
  induction H as [|m ms Hm _ IH]; simpl; [constructor|].
  apply Forall_app. split; [now apply above_lowest | exact IH].
Qed.

(** ** The trunk *)

(** C4. For a positive height and radius [create_trunk] returns a new solid:
    the library cylinder of that radius and height with 5 sections, moved up
    by half the height, so that its lowest vertex is at Z = 0 and its highest
    at Z = height; every face has the colour (101, 67, 33, 255). *)
Theorem create_trunk_anchored (trimesh : Creation) (height radius : Q) (w : World) :
  CreationSpec trimesh -> 0 < height -> 0 < radius ->
  exists (trunk : ref) (w' : World) (m : Trimesh),
    create_trunk trimesh height radius w = Some (trunk, w') /\
    heap w' = heap w ++ [m] /\ heap w' !! trunk = Some m /\
    vertices m = map (vadd (0, 0, height / 2)) (vertices (cylinder trimesh radius height 5)) /\
    faces m = faces (cylinder trimesh radius height 5) /\
    lowest_at m 0 /\ highest_at m height /\
    Forall (fun c => c = [101; 67; 33; 255]%Z) (face_colors m) /\
    length (face_colors m) = length (faces m).
Proof.
  intros contract Hh Hr. destruct w as [h d p].
  pose proof (runs_create_trunk trimesh height radius h [] d p) as R.
  rewrite app_nil_r in R. simpl in R.
  destruct (trunk_mesh_extent trimesh contract height radius Hh Hr) as [Hlo Hhi].
  eexists; eexists; exists (trunk_mesh trimesh height radius).
  split; [exact R|]. simpl.
  split; [reflexivity|]. split; [apply list_lookup_middle; lia|].
  split; [reflexivity|]. split; [reflexivity|]. split; [exact Hlo|]. split; [exact Hhi|].
  split.
  - apply List.Forall_forall. intros c Hc. now apply repeat_spec in Hc.
  - apply repeat_length.
Qed.

Lemma create_trunk_anchored_witness :
  exists (trunk : ref) (w' : World) (m : Trimesh),
    create_trunk polyhedra 3 0.7 empty_world = Some (trunk, w') /\
    heap w' = heap empty_world ++ [m] /\ heap w' !! trunk = Some m /\
    vertices m = map (vadd (0, 0, 3 / 2)) (vertices (cylinder polyhedra 0.7 3 5)) /\
    faces m = faces (cylinder polyhedra 0.7 3 5) /\
    lowest_at m 0 /\ highest_at m 3 /\
    Forall (fun c => c = [101; 67; 33; 255]%Z) (face_colors m) /\
    length (face_colors m) = length (faces m).
Proof.
  apply (create_trunk_anchored polyhedra 3 0.7 empty_world polyhedra_contract);
    reflexivity.
Defined.

(** ** Archetype selection *)

(** C6. Each turn of the loop draws one sample [rnd] and runs the
    constructor of the archetype it selects: [create_roundy_tree] when
    [rnd < 0.4], [create_pointy_tree] when [0.4 <= rnd < 0.75] and
    [create_stacked_tree] when [0.75 <= rnd]; the labels follow the same
    thresholds, and of a hundred evenly spaced samples of [0, 1), 40 select
    Roundy, 35 Pointy and 25 Stacked. *)
Theorem archetype_thresholds (trimesh : Creation) (row : Q * Q) (w : World) (r : Q) :
  let rnd := rng_draws w (rng_pos w) in
  let pos := (row.1, row.2, 0) in
  let drawn := mkWorld (heap w) (rng_draws w) (S (rng_pos w)) in
  (rnd < 0.4 -> loop_body trimesh row w = create_roundy_tree trimesh pos drawn) /\
  (0.4 <= rnd -> rnd < 0.75 ->
   loop_body trimesh row w = create_pointy_tree trimesh pos drawn) /\
  (0.75 <= rnd -> loop_body trimesh row w = create_stacked_tree trimesh pos drawn) /\
  (select_archetype r = Roundy <-> r < 0.4) /\
  (select_archetype r = Pointy <-> 0.4 <= r /\ r < 0.75) /\
  (select_archetype r = Stacked <-> 0.75 <= r) /\
  create_tree trimesh Roundy = create_roundy_tree trimesh /\
  create_tree trimesh Pointy = create_pointy_tree trimesh /\
  create_tree trimesh Stacked = create_stacked_tree trimesh /\
  length percent_grid = 100%nat /\
  selected Roundy percent_grid = 40%nat /\
  selected Pointy percent_grid = 35%nat /\
  selected Stacked percent_grid = 25%nat.
Proof.
  assert (T : 0.4 < 0.75) by reflexivity.
  assert (B : forall q,
             (select_archetype q = Roundy <-> q < 0.4) /\
             (select_archetype q = Pointy <-> 0.4 <= q /\ q < 0.75) /\
             (select_archetype q = Stacked <-> 0.75 <= q)).
  { intros q. unfold select_archetype.
    destruct (Qlt_le_dec q 0.4) as [H|H]; [|destruct (Qlt_le_dec q 0.75) as [H'|H']].
    - split; [now split|]. split; split; try discriminate; [intros [? _] | intros ?]; lra.
    - split; [split; [discriminate | intros ?; lra]|].
      split; [now split|]. split; [discriminate | intros ?; lra].
    - split; [split; [discriminate | intros ?; lra]|].
      split; [split; [discriminate | intros [_ ?]; lra]|]. now split. }
  intros rnd pos drawn.
  assert (Step : loop_body trimesh row w = create_tree trimesh (select_archetype rnd) pos drawn)
    by reflexivity.
  destruct (B rnd) as (R & P & S).
  split; [|split; [|split]].
  - intros H. apply R in H. now rewrite Step, H.
  - intros H H'. assert (E : select_archetype rnd = Pointy) by now apply P.
    now rewrite Step, E.
  - intros H. apply S in H. now rewrite Step, H.
  - destruct (B r) as (R' & P' & S'). repeat (split; [assumption|]).
    repeat (split; [reflexivity|]). vm_compute. now repeat split.
Qed.

Lemma archetype_thresholds_witness :
  loop_body polyhedra (1, 2) empty_world
  = create_roundy_tree polyhedra (1, 2, 0) (mkWorld [] sample_draws 1).
Proof.
  apply (archetype_thresholds polyhedra (1, 2) empty_world 0). reflexivity.
Defined.

(** ** Trees *)

Lemma stacked_on_chain_step (bottom top : Trimesh) :
  well_formed bottom = true -> well_formed top = true ->
  exists z, highest_at bottom z /\
            lowest_at (stacked_on bottom top OVERLAP_AMOUNT) (z - OVERLAP_AMOUNT).
Proof.
  intros Wb Wt.
  destruct (well_formed_highest bottom Wb) as [zb Hb].
  destruct (well_formed_lowest top Wt) as [zt Ht].
  destruct (stacked_on_well_formed bottom top OVERLAP_AMOUNT zb zt Wb Wt Hb Ht)
    as (_ & _ & _ & L & _).
  now exists zb.
Qed.

Section Chain.

Variable trimesh : Creation.
Hypothesis contract : CreationSpec trimesh.
Variable d : nat -> Q.
Hypothesis samples : rng_ok d.

Ltac dimension :=
  match goal with
  | |- 0 < sampled_uniform ?lo ?hi d ?p =>
      let H := fresh in
      assert (H : lo <= hi) by discriminate;
      pose proof (sampled_uniform_range lo hi d p samples H);
      assert (0 < lo) by reflexivity; lra
  | |- 0 < _ => reflexivity
  | |- (_ <= _ <= _)%nat => lia
  end.

(** In every archetype the shapes form a chain stacked on the trunk. *)
Lemma tree_parts_chain (a : archetype) (p : nat) (pos : vec3) :
  exists (trunk : Trimesh) (shapes : list Trimesh),
    tree_parts trimesh a d p pos
    = trunk :: shapes ++ [translate pos (merge (trunk :: shapes))] /\
    stacked_chain trunk shapes.
Proof.
  destruct a; simpl; unfold roundy_parts, pointy_parts, stacked_parts.
  - set (trunk := trunk_mesh trimesh _ _). set (k := paint _ _).
    assert (Wt : well_formed trunk = true)
      by (apply trunk_mesh_well_formed; [exact contract | dimension | dimension]).
    assert (Wk : well_formed k = true) by (apply painted_sphere_well_formed; assumption).
    exists trunk, [stacked_on trunk k OVERLAP_AMOUNT]. split; [reflexivity|].
    split; [now apply stacked_on_chain_step | exact I].
  - set (trunk := trunk_mesh trimesh _ _). set (k := paint _ _).
    assert (Wt : well_formed trunk = true)
      by (apply trunk_mesh_well_formed; [exact contract | dimension | dimension]).
    assert (Wk : well_formed k = true)
      by (apply painted_cone_well_formed; [exact contract | dimension ..]).
    exists trunk, [stacked_on trunk k OVERLAP_AMOUNT]. split; [reflexivity|].
    split; [now apply stacked_on_chain_step | exact I].
  - set (trunk := trunk_mesh trimesh _ _).
    set (k1 := paint _ (cone trimesh (sampled_uniform 3 4 d (2 + p)) _ _)).
    set (k2 := paint _ (cone trimesh 2.0 _ _)).
    assert (Wt : well_formed trunk = true)
      by (apply trunk_mesh_well_formed; [exact contract | dimension | dimension]).
    assert (W1 : well_formed k1 = true)
      by (apply painted_cone_well_formed; [exact contract | dimension ..]).
    assert (W2 : well_formed k2 = true)
      by (apply painted_cone_well_formed; [exact contract | dimension ..]).
    assert (Wc : well_formed (stacked_on trunk k1 OVERLAP_AMOUNT) = true).
    { destruct (well_formed_highest trunk Wt) as [zb Hb].
      destruct (well_formed_lowest k1 W1) as [zt Ht].
      now destruct (stacked_on_well_formed trunk k1 OVERLAP_AMOUNT zb zt Wt W1 Hb Ht)
        as (_ & _ & _ & _ & W). }
    exists trunk, [stacked_on trunk k1 OVERLAP_AMOUNT;
                   stacked_on (stacked_on trunk k1 OVERLAP_AMOUNT) k2 OVERLAP_AMOUNT].
    split; [reflexivity|].
    split; [now apply stacked_on_chain_step|].
    split; [now apply stacked_on_chain_step | exact I].
Qed.

End Chain.




(** ** The forest *)

(** C8. Generation creates solids, trees and the forest, and every one of
    them has exactly one colour per face; stacking and merging keep it so. *)
Theorem one_color_per_face
    (trimesh : Creation) (n_trees : nat) (plot_size : Z) (w : World) :
  CreationSpec trimesh -> rng_ok (rng_draws w) -> (1 <= n_trees)%nat ->
  (exists (forest : ref) (w' : World) (created : list Trimesh) (forest_mesh : Trimesh),
     generate trimesh n_trees plot_size w = Some (forest, w') /\
     heap w' = heap w ++ created /\
     Forall color_count_ok created /\
     heap w' !! forest = Some forest_mesh /\
     length (face_colors forest_mesh) = length (faces forest_mesh)) /\
  (forall height radius, color_count_ok (trunk_mesh trimesh height radius)) /\
  (forall c m, color_count_ok (paint c m)) /\
  (forall bottom top overlap,
     color_count_ok top -> color_count_ok (stacked_on bottom top overlap)) /\
  (forall ms, Forall color_count_ok ms -> color_count_ok (merge ms)).
Proof.
  intros contract samples _. destruct w as [h d p]. simpl in samples.
  destruct (runs_generate trimesh contract d samples n_trees plot_size h p)
    as (added & trees & rows & p' & R & _ & G & C).
  assert (K : color_count_ok (merge trees)).
  { apply color_count_ok_merge. clear R. induction G as [|? ? ? ? (_ & _ & ?) _ IH];
      constructor; assumption. }
  split; [|split; [|split; [|split]]].
  - exists (length (h ++ added)). eexists. exists (added ++ [merge trees]), (merge trees).
    split; [exact R|]. simpl. split; [now rewrite app_assoc|].
    split; [apply Forall_app; split; [exact C | now constructor]|].
    split; [apply list_lookup_middle; reflexivity | exact K].
  - intros. apply color_count_ok_translate, color_count_ok_paint.
  - apply color_count_ok_paint.
  - apply color_count_ok_stacked_on.
  - apply color_count_ok_merge.
Qed.

Lemma one_color_per_face_witness :
  (exists (forest : ref) (w' : World) (created : list Trimesh) (forest_mesh : Trimesh),
     generate polyhedra 20 120 empty_world = Some (forest, w') /\
     heap w' = heap empty_world ++ created /\
     Forall color_count_ok created /\
     heap w' !! forest = Some forest_mesh /\
     length (face_colors forest_mesh) = length (faces forest_mesh)) /\
  (forall height radius, color_count_ok (trunk_mesh polyhedra height radius)) /\
  (forall c m, color_count_ok (paint c m)) /\
  (forall bottom top overlap,
     color_count_ok top -> color_count_ok (stacked_on bottom top overlap)) /\
  (forall ms, Forall color_count_ok ms -> color_count_ok (merge ms)).
Proof.
  apply (one_color_per_face polyhedra 20 120 empty_world
           polyhedra_contract sample_draws_ok).
  lia.
Defined.







(** * Further properties of the script *)

(** ** Random colours *)

Lemma randint_offset_range (u : Q) (n : Z) :
  0 <= u -> u < 1 -> (0 < n)%Z -> (0 <= Qfloor (u * inject_Z n) < n)%Z.
Proof.
  intros H0 H1 Hn.
  assert (Pn : 0 < inject_Z n) by (rewrite Zlt_Qlt in Hn; exact Hn).
  split.
  - change 0%Z with (Qfloor 0). apply Qfloor_resp_le.
    apply Qmult_le_0_compat; [exact H0 | apply Qlt_le_weak, Pn].
  - rewrite Zlt_Qlt. eapply Qle_lt_trans; [apply Qfloor_le|].
    apply Qlt_le_trans with (1 * inject_Z n).
    + apply Qmult_lt_compat_r; assumption.
    + rewrite Qmult_1_l. apply Qle_refl.
Qed.

Lemma clip_is_channel (x : Z) : channel_ok (clip x 0 255).
Proof. unfold channel_ok, clip. lia. Qed.

Lemma clip_near (c off variance : Z) :
  channel_ok c -> (- variance <= off < variance)%Z ->
  (c - variance <= clip (c + off) 0 255 < c + variance)%Z.
Proof. unfold channel_ok, clip. lia. Qed.

Lemma sampled_channels_facts (base_rgb : list Z) (variance : Z) (d : nat -> Q) (p : nat) :
  rng_ok d -> (0 < variance)%Z ->
  Forall2 (fun c x => channel_ok x /\
                      (channel_ok c -> (c - variance <= x < c + variance)%Z))
          base_rgb (sampled_channels base_rgb variance d p).
Proof.
  intros Hd Hv. revert p; induction base_rgb as [|c base IH]; intros p;
    cbn [sampled_channels].
  - constructor.
  - constructor; [|apply IH]. split; [apply clip_is_channel|].
    intros Hc. apply clip_near; [exact Hc|].
    destruct (Hd p) as [H0 H1].
    pose proof (randint_offset_range (d p) (variance - - variance) H0 H1) as R. lia.
Qed.

(** X1. [get_random_color] returns the base channels followed by the alpha
    channel 255: every channel is a byte, and a base channel that is a byte
    moves by less than the variance (down by at most the variance); one
    sample is drawn per base channel and no mesh is touched. *)
Theorem get_random_color_channels (base_rgb : list Z) (variance : Z) (w : World) :
  rng_ok (rng_draws w) -> (0 < variance)%Z ->
  exists (col : color) (w' : World),
    get_random_color base_rgb variance w = Some (col, w') /\
    heap w' = heap w /\ rng_pos w' = (length base_rgb + rng_pos w)%nat /\
    length col = S (length base_rgb) /\ last col = Some 255%Z /\
    Forall channel_ok col /\
    Forall2 (fun c x => channel_ok c -> (c - variance <= x < c + variance)%Z)
            base_rgb (take (length base_rgb) col).
Proof.
  intros Hd Hv. destruct w as [h d p]. simpl in Hd.
  pose proof (sampled_channels_facts base_rgb variance d p Hd Hv) as F.
  assert (L : length (sampled_channels base_rgb variance d p) = length base_rgb)
    by (symmetry; eapply Forall2_length; exact F).
  exists (sampled_color base_rgb variance d p). eexists.
  split; [now apply runs_get_random_color|]. simpl. unfold sampled_color.
  split; [reflexivity|]. split; [reflexivity|].
  split; [rewrite length_app, L; simpl; lia|].
  split; [apply last_snoc|]. split.
  - apply Forall_app. split; [|constructor; [unfold channel_ok; lia | constructor]].
    clear L. induction F as [|? ? ? ? [? _] _ IH]; constructor; assumption.
  - rewrite <- L, take_app_length. clear L.
    induction F as [|? ? ? ? [_ ?] _ IH]; constructor; assumption.
Qed.

Lemma get_random_color_channels_witness :
  exists (col : color) (w' : World),
    get_random_color [124; 204; 57]%Z 25 empty_world = Some (col, w') /\
    heap w' = heap empty_world /\ rng_pos w' = (length [124; 204; 57]%Z + rng_pos empty_world)%nat /\
    length col = S (length [124; 204; 57]%Z) /\ last col = Some 255%Z /\
    Forall channel_ok col /\
    Forall2 (fun c x => channel_ok c -> (c - 25 <= x < c + 25)%Z)
            [124; 204; 57]%Z (take (length [124; 204; 57]%Z) col).
Proof.
  apply (get_random_color_channels [124; 204; 57]%Z 25 empty_world sample_draws_ok).
  reflexivity.
Defined.

(** X11. With a variance of 0 or less the interval of [randint] is empty:
    [get_random_color] on a colour with at least one channel raises, and it
    does so at the first channel. *)
Theorem get_random_color_needs_variance (base_rgb : list Z) (variance : Z) (w : World) :
  (variance <= 0)%Z -> base_rgb <> [] ->
  get_random_color base_rgb variance w = None /\
  randint (- variance) variance w = None.
Proof.
  intros Hv Hb.
  assert (E : (- variance <? variance)%Z = false) by (apply Z.ltb_ge; lia).
  assert (R : randint (- variance) variance w = None) by (unfold randint; now rewrite E).
  split; [|exact R].
  destruct base_rgb as [|c base]; [contradiction|].
  unfold get_random_color. simpl for_each. unfold bind at 1 2 3. now rewrite R.
Qed.

Lemma get_random_color_needs_variance_witness :
  get_random_color [124; 204; 57]%Z 0 empty_world = None /\
  randint (- 0) 0 empty_world = None.
Proof.
  apply (get_random_color_needs_variance [124; 204; 57]%Z 0 empty_world);
    [reflexivity | discriminate].
Defined.

(** ** More on stacking *)

Lemma select_from_none (keep : nat -> bool) (vs : list vec3) (i : nat) :
  (forall j, keep j = false) -> select_from keep i vs = [].
Proof.
  intros H. revert i; induction vs as [|v vs IH]; intros i; simpl; [reflexivity|].
  now rewrite H, IH.
Qed.

Lemma bounds_no_faces (m : Trimesh) : faces m = [] -> bounds m = None.
Proof.
  intros E. unfold bounds, faces_in_range, in_mesh. rewrite E. simpl.
  now rewrite select_from_none.
Qed.

(** X2. [stack_on_top] on two live objects raises exactly when one of them
    has no bounds; in particular when one of them has no face (a bare vertex
    array), whatever its vertices. *)
Theorem stack_on_top_needs_bounds
    (w : World) (bottom top : ref) (mb mt : Trimesh) (overlap : Q) :
  heap w !! bottom = Some mb -> heap w !! top = Some mt ->
  (stack_on_top bottom top overlap w = None <-> bounds mb = None \/ bounds mt = None) /\
  (faces mb = [] \/ faces mt = [] -> stack_on_top bottom top overlap w = None).
Proof.
  intros Hb Ht.
  assert (Iff : stack_on_top bottom top overlap w = None
                <-> bounds mb = None \/ bounds mt = None).
  { unfold stack_on_top, get_bounds, apply_translation, update, load, bind, ret, raise.
    rewrite Hb. destruct (bounds mb) as [bb|].
    - rewrite Ht. destruct (bounds mt) as [tb|].
      + rewrite Ht. split; [discriminate | intros [H|H]; discriminate].
      + split; [now right | reflexivity].
    - split; [now left | reflexivity]. }
  split; [exact Iff|].
  intros [E|E]; apply Iff; [left | right]; now apply bounds_no_faces.
Qed.

Lemma stack_on_top_needs_bounds_witness :
  (stack_on_top 0%nat 1%nat 0.5 solid_and_points = None
   <-> bounds (tetrahedron 2) = None \/ bounds (mkTrimesh [(0, 0, 7); (1, 0, 8)] [] []) = None) /\
  (faces (tetrahedron 2) = [] \/ faces (mkTrimesh [(0, 0, 7); (1, 0, 8)] [] []) = [] ->
   stack_on_top 0%nat 1%nat 0.5 solid_and_points = None).
Proof.
  apply (stack_on_top_needs_bounds solid_and_points 0%nat 1%nat (tetrahedron 2)
           (mkTrimesh [(0, 0, 7); (1, 0, 8)] [] []) 0.5); reflexivity.
Defined.

(** ** The structure of a tree *)

Lemma stacked_on_keeps_well_formed (bottom top : Trimesh) (overlap : Q) :
  well_formed bottom = true -> well_formed top = true ->
  well_formed (stacked_on bottom top overlap) = true.
Proof.
  intros Wb Wt.
  destruct (well_formed_highest bottom Wb) as [zb Hb].
  destruct (well_formed_lowest top Wt) as [zt Ht].
  now destruct (stacked_on_well_formed bottom top overlap zb zt Wb Wt Hb Ht)
    as (_ & _ & _ & _ & W).
Qed.

Lemma faces_in_range_indices (m : Trimesh) :
  faces_in_range m = true <-> indices_below (length (vertices m)) m.
Proof.
  unfold faces_in_range, indices_below. rewrite List.forallb_forall, List.Forall_forall.
  split; intros H f Hf; specialize (H f Hf).
  - simpl in H. rewrite !andb_true_iff, !Nat.ltb_lt in H. tauto.
  - simpl. rewrite !andb_true_iff, !Nat.ltb_lt. tauto.
Qed.

Lemma indices_below_append (a b : Trimesh) :
  indices_below (length (vertices a)) a -> indices_below (length (vertices b)) b ->
  indices_below (length (vertices (append_mesh a b))) (append_mesh a b).
Proof.
  unfold indices_below. simpl. rewrite length_app. intros Ha Hb.
  apply Forall_app. split.
  - eapply Forall_impl; [exact Ha|]. simpl. intros f (? & ? & ?). lia.
  - apply Forall_map. eapply Forall_impl; [exact Hb|]. simpl. intros f (? & ? & ?). lia.
Qed.

Lemma indices_below_fold (ms : list Trimesh) (acc : Trimesh) :
  indices_below (length (vertices acc)) acc ->
  Forall (fun m => indices_below (length (vertices m)) m) ms ->
  indices_below (length (vertices (fold_left append_mesh ms acc)))
                (fold_left append_mesh ms acc).
Proof.
  intros Ha H. revert acc Ha. induction H as [|m ms Hm _ IH]; intros acc Ha; simpl.
  - exact Ha.
  - apply IH. now apply indices_below_append.
Qed.

Lemma indices_below_merge (ms : list Trimesh) :
  Forall (fun m => indices_below (length (vertices m)) m) ms ->
  indices_below (length (vertices (merge ms))) (merge ms).
Proof. apply indices_below_fold. constructor. Qed.

Lemma indices_below_translate (t : vec3) (m : Trimesh) :
  indices_below (length (vertices m)) m ->
  indices_below (length (vertices (translate t m))) (translate t m).
Proof. unfold indices_below. simpl. now rewrite length_map. Qed.

Lemma well_formed_indices (m : Trimesh) :
  well_formed m = true -> indices_below (length (vertices m)) m.
Proof.
  intros W. apply faces_in_range_indices. now apply well_formed_parts in W.
Qed.

Lemma sampled_color_rgba (a b c variance : Z) (d : nat -> Q) (p : nat) :
  rgba_ok (sampled_color [a; b; c] variance d p).
Proof.
  split; [reflexivity|]. unfold sampled_color. cbn [sampled_channels app].
  repeat (constructor; [apply clip_is_channel|]).
  constructor; [unfold channel_ok; lia | constructor].
Qed.

Lemma face_colors_stacked_on (bottom top : Trimesh) (overlap : Q) :
  face_colors (stacked_on bottom top overlap) = face_colors top.
Proof.
  unfold stacked_on. destruct (bounds bottom); [|reflexivity].
  destruct (bounds top); reflexivity.
Qed.

Lemma rgba_ok_merge (ms : list Trimesh) :
  Forall (fun m => Forall rgba_ok (face_colors m)) ms ->
  Forall rgba_ok (face_colors (merge ms)).
Proof.
  rewrite face_colors_merge. induction 1 as [|m ms Hm _ IH]; simpl; [constructor|].
  apply Forall_app. now split.
Qed.

Section Structure.

Variable trimesh : Creation.
Hypothesis contract : CreationSpec trimesh.
Variable d : nat -> Q.
Hypothesis samples : rng_ok d.

Ltac dimension :=
  match goal with
  | |- 0 < sampled_uniform ?lo ?hi d ?p =>
      let H := fresh in
      assert (H : lo <= hi) by discriminate;
      pose proof (sampled_uniform_range lo hi d p samples H);
      assert (0 < lo) by reflexivity; lra
  | |- 0 < _ => reflexivity
  | |- (_ <= _ <= _)%nat => lia
  end.

(** A constructor leaves two or three valid solids, each with byte colours,
    followed by their merge moved to the position. *)
Lemma tree_parts_structure (a : archetype) (p : nat) (pos : vec3) :
  exists solids : list Trimesh,
    tree_parts trimesh a d p pos = solids ++ [translate pos (merge solids)] /\
    Forall (fun m => well_formed m = true) solids /\
    Forall (fun m => Forall rgba_ok (face_colors m)) solids.
Proof.
  assert (T : forall h r, 0 < h -> 0 < r ->
                well_formed (trunk_mesh trimesh h r) = true /\
                Forall rgba_ok (face_colors (trunk_mesh trimesh h r))).
  { intros h r Hh Hr. split; [now apply trunk_mesh_well_formed|].
    rewrite trunk_mesh_colors. apply List.Forall_forall. intros c Hc.
    apply repeat_spec in Hc as ->. split; [reflexivity|].
    repeat constructor; unfold channel_ok; lia. }
  assert (S : forall b col m o, well_formed b = true -> well_formed m = true ->
                rgba_ok col ->
                well_formed (stacked_on b (paint col m) o) = true /\
                Forall rgba_ok (face_colors (stacked_on b (paint col m) o))).
  { intros b col m o Wb Wm Hc. split.
    - apply stacked_on_keeps_well_formed; [exact Wb | now rewrite well_formed_paint].
    - rewrite face_colors_stacked_on. simpl. apply List.Forall_forall. intros c Hin.
      now apply repeat_spec in Hin as ->. }
  destruct a; simpl; unfold roundy_parts, pointy_parts, stacked_parts.
  - destruct (T (sampled_uniform 3 6 d p) 0.7) as [Wt Ct]; [dimension | dimension |].
    set (trunk := trunk_mesh trimesh _ _) in *.
    set (col := sampled_color _ _ _ _). set (ball := icosphere trimesh _ _).
    destruct (S trunk col ball OVERLAP_AMOUNT Wt) as [Wc Cc];
      [apply (icosphere_well_formed _ contract); dimension | apply sampled_color_rgba |].
    exists [trunk; stacked_on trunk (paint col ball) OVERLAP_AMOUNT].
    split; [reflexivity|]. split; repeat (constructor; [assumption|]); constructor.
  - destruct (T (sampled_uniform 2 4 d p) 0.6) as [Wt Ct]; [dimension | dimension |].
    set (trunk := trunk_mesh trimesh _ _) in *.
    set (col := sampled_color _ _ _ _). set (k := cone trimesh _ _ _).
    destruct (S trunk col k OVERLAP_AMOUNT Wt) as [Wc Cc];
      [apply (cone_well_formed _ contract); dimension | apply sampled_color_rgba |].
    exists [trunk; stacked_on trunk (paint col k) OVERLAP_AMOUNT].
    split; [reflexivity|]. split; repeat (constructor; [assumption|]); constructor.
  - destruct (T (sampled_uniform 2 3 d p) 0.7) as [Wt Ct]; [dimension | dimension |].
    set (trunk := trunk_mesh trimesh _ _) in *.
    set (col1 := sampled_color [46; 139; 87]%Z _ _ _).
    set (k1 := cone trimesh (sampled_uniform 3 4 d (2 + p)) _ _).
    set (col2 := sampled_color [143; 188; 143]%Z _ _ _).
    set (k2 := cone trimesh 2.0 _ _).
    destruct (S trunk col1 k1 OVERLAP_AMOUNT Wt) as [W1 C1];
      [apply (cone_well_formed _ contract); dimension | apply sampled_color_rgba |].
    set (c1 := stacked_on trunk (paint col1 k1) OVERLAP_AMOUNT) in *.
    destruct (S c1 col2 k2 OVERLAP_AMOUNT W1) as [W2 C2];
      [apply (cone_well_formed _ contract); dimension | apply sampled_color_rgba |].
    exists [trunk; c1; stacked_on c1 (paint col2 k2) OVERLAP_AMOUNT].
    split; [reflexivity|]. split; repeat (constructor; [assumption|]); constructor.
Qed.

End Structure.

(** The tree a constructor returns is the merge of its solids, moved. *)
Lemma built_tree_is_merge (trimesh : Creation) (pos : vec3) (m : Trimesh) :
  CreationSpec trimesh -> built_tree trimesh pos m ->
  exists solids : list Trimesh,
    m = translate pos (merge solids) /\
    Forall (fun s => well_formed s = true) solids /\
    Forall (fun s => Forall rgba_ok (face_colors s)) solids.
Proof.
  intros contract (a & w & w' & r & Hd & Hrun & Hr). destruct w as [h d p]. simpl in Hd.
  pose proof (runs_create_tree trimesh contract d Hd a pos h p) as R.
  unfold runs in R. rewrite R in Hrun. injection Hrun as <- <-. simpl in Hr.
  rewrite lookup_past, <- last_lookup in Hr.
  destruct (tree_parts_structure trimesh contract d Hd a p pos) as (solids & E & W & C).
  rewrite E, last_snoc in Hr. injection Hr as <-.
  now exists solids.
Qed.


(** ** The figure's traces *)

Section Figure.

Variable trimesh : Creation.
Hypothesis contract : CreationSpec trimesh.
Variable d : nat -> Q.
Hypothesis samples : rng_ok d.

Lemma runs_figure (n_trees : nat) (plot_size : Z) (h : list Trimesh) (p : nat) :
  exists (trees : list Trimesh) (rows : list (Q * Q)) (w' : World),
    runs (figure trimesh n_trees plot_size) (mkWorld h d p)
         [trees_trace (merge trees); ground_trace plot_size] w' /\
    length rows = n_trees /\
    Forall2 (fun row m => built_tree trimesh (row.1, row.2, 0) m /\ color_count_ok m)
            rows trees.
Proof.
  destruct (runs_generate trimesh contract d samples n_trees plot_size h p)
    as (added & trees & rows & p' & R & L & G & _).
  exists trees, rows. eexists. split; [|split; [exact L|]].
  - unfold figure. eapply runs_bind; [exact R|].
    eapply runs_bind; [apply runs_load, list_lookup_middle; reflexivity|]. reflexivity.
  - eapply Forall2_impl; [exact G|]. now intros row m (B & _ & K).
Qed.

Lemma forest_of_built_trees (rows : list (Q * Q)) (trees : list Trimesh) :
  Forall2 (fun row m => built_tree trimesh (row.1, row.2, 0) m /\ color_count_ok m)
          rows trees ->
  indices_below (length (vertices (merge trees))) (merge trees) /\
  Forall rgba_ok (face_colors (merge trees)) /\
  color_count_ok (merge trees).
Proof.
  intros G.
  assert (F : Forall (fun m => indices_below (length (vertices m)) m /\
                               Forall rgba_ok (face_colors m) /\ color_count_ok m) trees).
  { induction G as [|row m rows trees [B K] _ IH]; constructor; [|exact IH].
    split; [|split; [|exact K]];
      destruct (built_tree_is_merge trimesh _ m contract B) as (solids & -> & W & C).
    - apply indices_below_translate, indices_below_merge.
      eapply Forall_impl; [exact W|]. apply well_formed_indices.
    - simpl. now apply rgba_ok_merge. }
  split; [|split].
  - apply indices_below_merge. eapply Forall_impl; [exact F|]. now intros m (? & _).
  - apply rgba_ok_merge. eapply Forall_impl; [exact F|]. now intros m (_ & ? & _).
  - apply color_count_ok_merge. eapply Forall_impl; [exact F|]. now intros m (_ & _ & ?).
Qed.

End Figure.

(** X5. In the figure the script builds, both traces are well indexed: the
    three coordinate arrays have one length, the three index arrays have one
    length, and every index of a triangle is below the number of vertices. *)
Theorem figure_traces_well_indexed
    (trimesh : Creation) (n_trees : nat) (plot_size : Z) (w : World) :
  CreationSpec trimesh -> rng_ok (rng_draws w) -> (1 <= n_trees)%nat ->
  exists (traces : list Mesh3d) (w' : World),
    figure trimesh n_trees plot_size w = Some (traces, w') /\
    length traces = 2%nat /\
    Forall (fun t =>
              length (trace_y t) = length (trace_x t) /\
              length (trace_z t) = length (trace_x t) /\
              length (trace_j t) = length (trace_i t) /\
              length (trace_k t) = length (trace_i t) /\
              Forall (fun i => (i < length (trace_x t))%nat)
                     (trace_i t ++ trace_j t ++ trace_k t))
           traces.
Proof.
  intros contract samples _. destruct w as [h d p]. simpl in samples.
  destruct (runs_figure trimesh contract d samples n_trees plot_size h p)
    as (trees & rows & w' & R & _ & G).
  destruct (forest_of_built_trees trimesh contract rows trees G) as (I & _ & _).
  eexists; eexists. split; [exact R|]. split; [reflexivity|].
  constructor; [|constructor; [|constructor]].
  - unfold trees_trace. cbn [trace_x trace_y trace_z trace_i trace_j trace_k].
    rewrite !length_map. repeat (split; [reflexivity|]).
    unfold indices_below in I. rewrite !Forall_app. repeat split;
      apply Forall_map; (eapply Forall_impl; [exact I|]); now intros f (? & ? & ?).
  - simpl. repeat (split; [reflexivity|]). repeat (constructor; [lia|]). constructor.
Qed.

Lemma figure_traces_well_indexed_witness :
  exists (traces : list Mesh3d) (w' : World),
    figure polyhedra 20 120 empty_world = Some (traces, w') /\
    length traces = 2%nat /\
    Forall (fun t =>
              length (trace_y t) = length (trace_x t) /\
              length (trace_z t) = length (trace_x t) /\
              length (trace_j t) = length (trace_i t) /\
              length (trace_k t) = length (trace_i t) /\
              Forall (fun i => (i < length (trace_x t))%nat)
                     (trace_i t ++ trace_j t ++ trace_k t))
           traces.
Proof.
  apply (figure_traces_well_indexed polyhedra 20 120 empty_world
           polyhedra_contract sample_draws_ok).
  lia.
Defined.



(** ** Positions and footprint of a generation *)

Lemma sampled_rows_range (low high : Q) (d : nat -> Q) (p n : nat) :
  rng_ok d -> low <= high ->
  Forall (fun row : Q * Q => (low <= row.1 /\ row.1 <= high) /\
                             (low <= row.2 /\ row.2 <= high))
         (sampled_rows low high d p n).
Proof.
  intros Hd Hlh. revert p; induction n as [|n IH]; intros p; simpl; constructor.
  - split; now apply sampled_uniform_range.
  - apply IH.
Qed.

Lemma plot_half_range (P : Q) : 0 <= P -> - P / 2 <= P / 2.
Proof.
  intros H. unfold Qdiv. change (/ 2) with (1 # 2). lra.
Qed.

Lemma plot_inside_ground (P x : Q) :
  0 < P -> - P / 2 <= x -> x <= P / 2 -> - P / 1.8 < x /\ x < P / 1.8.
Proof.
  unfold Qdiv. change (/ 2) with (1 # 2). change (/ 1.8) with (10 # 18).
  intros. split; lra.
Qed.

Section Detail.

Variable trimesh : Creation.
Hypothesis contract : CreationSpec trimesh.
Variable d : nat -> Q.
Hypothesis samples : rng_ok d.

Lemma runs_generate_rows (n_trees : nat) (plot_size : Z) (h : list Trimesh) (p : nat) :
  exists (added trees : list Trimesh) (p' : nat),
    runs (generate trimesh n_trees plot_size) (mkWorld h d p) (length (h ++ added))
         (mkWorld ((h ++ added) ++ [merge trees]) d p') /\
    Forall2 (fun row m => built_tree trimesh (row.1, row.2, 0) m)
            (sampled_rows (- inject_Z plot_size / 2) (inject_Z plot_size / 2) d p n_trees)
            trees.
Proof.
  set (rows := sampled_rows (- inject_Z plot_size / 2) (inject_Z plot_size / 2) d p n_trees).
  destruct (runs_loop trimesh contract d samples rows h (2 * n_trees + p))
    as (refs & added & trees & p' & R & F & G & _).
  exists added, trees, p'. split.
  - unfold generate.
    eapply runs_bind; [apply runs_uniform_rows|]. fold rows.
    eapply runs_bind; [exact R|].
    apply (runs_concatenate refs trees (mkWorld (h ++ added) d p')). exact F.
  - eapply Forall2_impl; [exact G|]. now intros row m (B & _).
Qed.

Lemma runs_loop_body_count (row : Q * Q) (h : list Trimesh) (p : nat) :
  exists (r : ref) (parts : list Trimesh) (tree : Trimesh) (p' : nat),
    runs (loop_body trimesh row) (mkWorld h d p) r (mkWorld (h ++ parts) d p') /\
    (h ++ parts) !! r = Some tree /\
    (p + 6 <= p' <= p + 11)%nat /\ (3 <= length parts <= 4)%nat.
Proof.
  set (a := select_archetype (d p)).
  set (pos := (row.1, row.2, 0)).
  destruct (tree_parts_structure trimesh contract d samples a (1 + p) pos)
    as (solids & E & _).
  exists (length h + pred (length (tree_parts trimesh a d (1 + p) pos)))%nat,
    (tree_parts trimesh a d (1 + p) pos), (translate pos (merge solids)),
    (samples_drawn a + (1 + p))%nat.
  split; [|split; [|split]].
  - unfold loop_body. eapply runs_bind; [apply runs_rand|].
    apply runs_create_tree; assumption.
  - rewrite lookup_past, <- last_lookup, E. apply last_snoc.
  - destruct a; simpl; lia.
  - destruct a; simpl; lia.
Qed.

Lemma runs_loop_count (rows : list (Q * Q)) (h : list Trimesh) (p : nat) :
  exists (refs : list ref) (added trees : list Trimesh) (p' : nat),
    runs (for_each (loop_body trimesh) rows) (mkWorld h d p) refs
         (mkWorld (h ++ added) d p') /\
    Forall2 (fun r m => (h ++ added) !! r = Some m) refs trees /\
    (p + 6 * length rows <= p' <= p + 11 * length rows)%nat /\
    (3 * length rows <= length added <= 4 * length rows)%nat.
Proof.
  revert h p; induction rows as [|row rows IH]; intros h p.
  - exists [], [], [], p. rewrite app_nil_r. simpl.
    split; [reflexivity|]. split; [constructor|]. lia.
  - destruct (runs_loop_body_count row h p) as (r & parts & tree & p1 & R1 & Hr & P1 & L1).
    destruct (IH (h ++ parts) p1) as (refs & added & trees & p2 & R2 & F & P2 & L2).
    exists (r :: refs), (parts ++ added), (tree :: trees), p2.
    rewrite app_assoc, length_app. simpl length. split; [|split; [|lia]].
    + simpl for_each. eapply runs_bind; [exact R1|].
      eapply runs_bind; [exact R2|]. reflexivity.
    + constructor; [|exact F]. now apply lookup_app_l_Some.
Qed.

End Detail.

(** X7. Every tree of the forest is built at a ground position sampled in
    the square of half-width [plot_size / 2]; for a positive plot size that
    position lies strictly inside the ground quad, whose corners are at plus
    and minus [plot_size / 1.8]. *)
Theorem trees_inside_plot
    (trimesh : Creation) (n_trees : nat) (plot_size : Z) (w : World) :
  CreationSpec trimesh -> rng_ok (rng_draws w) -> (1 <= n_trees)%nat ->
  (0 < plot_size)%Z ->
  exists (forest : ref) (w' : World) (trees : list Trimesh) (rows : list (Q * Q)),
    generate trimesh n_trees plot_size w = Some (forest, w') /\
    heap w' !! forest = Some (merge trees) /\
    Forall2 (fun row m => built_tree trimesh (row.1, row.2, 0) m) rows trees /\
    (let P := inject_Z plot_size in
     Forall (fun row : Q * Q =>
               (- P / 2 <= row.1 /\ row.1 <= P / 2) /\
               (- P / 2 <= row.2 /\ row.2 <= P / 2) /\
               (- P / 1.8 < row.1 /\ row.1 < P / 1.8) /\
               (- P / 1.8 < row.2 /\ row.2 < P / 1.8)) rows).
Proof.
  intros contract samples _ Hp. destruct w as [h d p]. simpl in samples.
  destruct (runs_generate_rows trimesh contract d samples n_trees plot_size h p)
    as (added & trees & p' & R & G).
  assert (P0 : 0 < inject_Z plot_size) by (rewrite Zlt_Qlt in Hp; exact Hp).
  eexists; eexists. exists trees. eexists.
  split; [exact R|]. simpl. split; [apply list_lookup_middle; reflexivity|].
  split; [exact G|].
  eapply Forall_impl.
  - apply sampled_rows_range; [exact samples | apply plot_half_range; lra].
  - intros row [[A B] [C D]]. repeat split; try assumption;
      now apply (plot_inside_ground (inject_Z plot_size)).
Qed.

Lemma trees_inside_plot_witness :
  exists (forest : ref) (w' : World) (trees : list Trimesh) (rows : list (Q * Q)),
    generate polyhedra 20 120 empty_world = Some (forest, w') /\
    heap w' !! forest = Some (merge trees) /\
    Forall2 (fun row m => built_tree polyhedra (row.1, row.2, 0) m) rows trees /\
    (let P := inject_Z 120 in
     Forall (fun row : Q * Q =>
               (- P / 2 <= row.1 /\ row.1 <= P / 2) /\
               (- P / 2 <= row.2 /\ row.2 <= P / 2) /\
               (- P / 1.8 < row.1 /\ row.1 < P / 1.8) /\
               (- P / 1.8 < row.2 /\ row.2 < P / 1.8)) rows).
Proof.
  apply (trees_inside_plot polyhedra 20 120 empty_world polyhedra_contract sample_draws_ok);
    [lia | reflexivity].
Defined.

(** X8. A generation of [n] trees draws between 8 and 13 samples per tree
    (2 for the position, 1 for the archetype, 5 to 10 in the constructor) and
    creates between 3 and 4 meshes per tree plus the forest, which is the
    last object created; the objects that existed before are untouched. *)
Theorem generation_footprint
    (trimesh : Creation) (n_trees : nat) (plot_size : Z) (w : World) :
  CreationSpec trimesh -> rng_ok (rng_draws w) -> (1 <= n_trees)%nat ->
  exists (forest : ref) (w' : World),
    generate trimesh n_trees plot_size w = Some (forest, w') /\
    rng_draws w' = rng_draws w /\
    (rng_pos w + 8 * n_trees <= rng_pos w' <= rng_pos w + 13 * n_trees)%nat /\
    (length (heap w) + 3 * n_trees + 1 <= length (heap w')
     <= length (heap w) + 4 * n_trees + 1)%nat /\
    S forest = length (heap w') /\
    (forall r m, heap w !! r = Some m -> heap w' !! r = Some m).
Proof.
  intros contract samples _. destruct w as [h d p]. simpl in samples.
  set (rows := sampled_rows (- inject_Z plot_size / 2) (inject_Z plot_size / 2) d p n_trees).
  destruct (runs_loop_count trimesh contract d samples rows h (2 * n_trees + p))
    as (refs & added & trees & p' & R & F & P & L).
  assert (Ln : length rows = n_trees) by apply length_sampled_rows.
  rewrite Ln in P, L.
  exists (length (h ++ added)), (mkWorld ((h ++ added) ++ [merge trees]) d p').
  split; [|split; [reflexivity|split; [|split; [|split]]]].
  - unfold generate.
    eapply runs_bind; [apply runs_uniform_rows|]. fold rows.
    eapply runs_bind; [exact R|].
    apply (runs_concatenate refs trees (mkWorld (h ++ added) d p')). exact F.
  - simpl. lia.
  - simpl. rewrite !length_app. simpl. lia.
  - simpl. rewrite !length_app. simpl. lia.
  - simpl. intros r m Hr. now apply lookup_app_l_Some, lookup_app_l_Some.
Qed.

Lemma generation_footprint_witness :
  exists (forest : ref) (w' : World),
    generate polyhedra 20 120 two_solids = Some (forest, w') /\
    rng_draws w' = rng_draws two_solids /\
    (rng_pos two_solids + 8 * 20 <= rng_pos w' <= rng_pos two_solids + 13 * 20)%nat /\
    (length (heap two_solids) + 3 * 20 + 1 <= length (heap w')
     <= length (heap two_solids) + 4 * 20 + 1)%nat /\
    S forest = length (heap w') /\
    (forall r m, heap two_solids !! r = Some m -> heap w' !! r = Some m).
Proof.
  apply (generation_footprint polyhedra 20 120 two_solids polyhedra_contract sample_draws_ok).
  lia.
Defined.

(** ** Heights of cone trees *)

Lemma highest_of_eq (vs : list vec3) (z z' : Q) :
  z == z' -> highest_of vs z -> highest_of vs z'.
Proof.
  intros E (y & Hy & Hz). exists y. split; [exact Hy | now rewrite Hz].
Qed.

Lemma highest_of_app (l1 l2 : list vec3) (z1 z2 : Q) :
  highest_of l1 z1 -> highest_of l2 z2 -> highest_of (l1 ++ l2) (Qmax z1 z2).
Proof.
  intros (y1 & H1 & E1) (y2 & H2 & E2). unfold highest_of in *.
  destruct l1 as [|v vs]; simpl in *; [discriminate|].
  destruct l2 as [|u us]; simpl in *; [discriminate|].
  injection H1 as <-. injection H2 as <-.
  eexists; split; [reflexivity|].
  rewrite map_app. simpl. rewrite maximum_app. now rewrite E1, E2.
Qed.

Lemma highest_of_translate (t : vec3) (l : list vec3) (z : Q) :
  highest_of l z -> highest_of (map (vadd t) l) (z + vz t).
Proof.
  intros H. exact (highest_at_translate t (mkTrimesh l [] []) z H).
Qed.

(** The top of a tree whose crown ends above its trunk. *)
Lemma assembled_tree_highest (trunk : Trimesh) (shapes : list Trimesh) (x y ht top : Q) :
  highest_at trunk ht -> highest_of (concat (map vertices shapes)) top -> ht <= top ->
  highest_at (translate (x, y, 0) (merge (trunk :: shapes))) top.
Proof.
  intros Ht Hs Hle.
  assert (E : vertices (translate (x, y, 0) (merge (trunk :: shapes)))
              = map (vadd (x, y, 0)) (vertices trunk ++ concat (map vertices shapes))).
  { simpl. now rewrite vertices_merge. }
  unfold highest_at, max_z. rewrite E.
  apply (highest_of_eq _ (Qmax ht top + vz (x, y, 0))).
  - change (vz (x, y, 0)) with 0. rewrite Q.max_r by exact Hle. ring.
  - apply highest_of_translate, highest_of_app; assumption.
Qed.

Section Heights.

Variable trimesh : Creation.
Hypothesis contract : CreationSpec trimesh.
Variable d : nat -> Q.
Hypothesis samples : rng_ok d.

Ltac range lo hi p Hr :=
  let H := fresh in
  assert (H : lo <= hi) by discriminate;
  pose proof (sampled_uniform_range lo hi d p samples H) as Hr; clear H.

Lemma pointy_parts_height (p : nat) (x y : Q) :
  exists (trunk crown tree : Trimesh) (h_trunk h_crown : Q),
    pointy_parts trimesh d p (x, y, 0) = [trunk; crown; tree] /\
    (2 <= h_trunk /\ h_trunk <= 4) /\ (6 <= h_crown /\ h_crown <= 10) /\
    highest_at trunk h_trunk /\
    lowest_at crown (h_trunk - 0.5) /\ highest_at crown (h_trunk - 0.5 + h_crown) /\
    lowest_at tree 0 /\ highest_at tree (h_trunk - 0.5 + h_crown).
Proof.
  unfold pointy_parts.
  set (h := sampled_uniform 2 4 d p). set (hc := sampled_uniform 6 10 d (1 + p)).
  set (rc := sampled_uniform 2.5 4.0 d (2 + p)).
  set (trunk := trunk_mesh trimesh h 0.6).
  set (k := paint _ (cone trimesh rc hc 6)).
  set (crown := stacked_on trunk k OVERLAP_AMOUNT).
  range 2 4 p Hh. fold h in Hh. range 6 10 (1 + p)%nat Hc. fold hc in Hc.
  range 2.5 4.0 (2 + p)%nat Hr. fold rc in Hr.
  assert (Wt : well_formed trunk = true)
    by (apply trunk_mesh_well_formed; [exact contract | lra | reflexivity]).
  assert (Rc : 0 < rc) by (assert (0 < 2.5) by reflexivity; lra).
  assert (Pc : 0 < hc) by lra.
  assert (Wk : well_formed k = true).
  { unfold k. rewrite well_formed_paint.
    apply (cone_well_formed _ contract); [exact Rc | exact Pc | lia]. }
  destruct (trunk_mesh_extent trimesh contract h 0.6) as [Tlo Thi]; [lra | reflexivity |].
  fold trunk in Tlo, Thi.
  destruct (cone_tall _ contract rc hc 6%nat Rc Pc) as (z0 & Klo & Khi); [lia|].
  destruct (stacked_on_extent trunk k OVERLAP_AMOUNT h z0 (z0 + hc) Wt Wk Thi)
    as (Clo & Chi & _); [exact Klo | exact Khi |]. fold crown in Clo, Chi.
  change OVERLAP_AMOUNT with 0.5 in Clo, Chi.
  assert (Chi' : highest_at crown (h - 0.5 + hc))
    by (eapply highest_at_eq; [|exact Chi]; ring).
  destruct (one_shape_crown crown (h - 0.5) Clo) as [Hc1 _].
  destruct (assembled_tree_lowest trunk [crown] x y (h - 0.5) Tlo Hc1) as [_ Hl]; [lra|].
  exists trunk, crown, (translate (x, y, 0) (merge [trunk; crown])), h, hc.
  split; [reflexivity|]. split; [exact Hh|]. split; [exact Hc|]. split; [exact Thi|].
  split; [exact Clo|]. split; [exact Chi'|]. split; [exact Hl|].
  apply (assembled_tree_highest trunk [crown] x y h); [exact Thi | | lra].
  simpl. rewrite app_nil_r. exact Chi'.
Qed.

Lemma stacked_parts_height (p : nat) (x y : Q) :
  exists (trunk c1 c2 tree : Trimesh) (h_trunk h1 h2 : Q),
    stacked_parts trimesh d p (x, y, 0) = [trunk; c1; c2; tree] /\
    (2 <= h_trunk /\ h_trunk <= 3) /\ (3 <= h1 /\ h1 <= 5) /\ (2 <= h2 /\ h2 <= 4) /\
    highest_at trunk h_trunk /\
    lowest_at c1 (h_trunk - 0.5) /\ highest_at c1 (h_trunk - 0.5 + h1) /\
    lowest_at c2 (h_trunk + h1 - 1) /\ highest_at c2 (h_trunk + h1 + h2 - 1) /\
    lowest_at tree 0 /\ highest_at tree (h_trunk + h1 + h2 - 1).
Proof.
  unfold stacked_parts.
  set (h := sampled_uniform 2 3 d p). set (trunk := trunk_mesh trimesh h 0.7).
  set (h1 := sampled_uniform 3 5 d (1 + p)). set (r1 := sampled_uniform 3 4 d (2 + p)).
  set (k1 := paint _ (cone trimesh r1 h1 7)).
  set (c1 := stacked_on trunk k1 OVERLAP_AMOUNT).
  set (h2 := sampled_uniform 2 4 d (6 + p)).
  set (k2 := paint _ (cone trimesh 2.0 h2 7)).
  set (c2 := stacked_on c1 k2 OVERLAP_AMOUNT).
  range 2 3 p Hh. fold h in Hh. range 3 5 (1 + p)%nat Hh1. fold h1 in Hh1.
  range 3 4 (2 + p)%nat Hr1. fold r1 in Hr1. range 2 4 (6 + p)%nat Hh2. fold h2 in Hh2.
  assert (Wt : well_formed trunk = true)
    by (apply trunk_mesh_well_formed; [exact contract | lra | reflexivity]).
  assert (P1 : 0 < h1) by lra. assert (R1 : 0 < r1) by lra. assert (P2 : 0 < h2) by lra.
  assert (W1 : well_formed k1 = true).
  { unfold k1. rewrite well_formed_paint.
    apply (cone_well_formed _ contract); [exact R1 | exact P1 | lia]. }
  assert (W2 : well_formed k2 = true).
  { unfold k2. rewrite well_formed_paint.
    apply (cone_well_formed _ contract); [reflexivity | exact P2 | lia]. }
  destruct (trunk_mesh_extent trimesh contract h 0.7) as [Tlo Thi]; [lra | reflexivity |].
  fold trunk in Tlo, Thi.
  destruct (cone_tall _ contract r1 h1 7%nat R1 P1) as (z1 & K1lo & K1hi); [lia|].
  destruct (cone_tall _ contract 2.0 h2 7%nat) as (z2 & K2lo & K2hi);
    [reflexivity | exact P2 | lia |].
  destruct (stacked_on_extent trunk k1 OVERLAP_AMOUNT h z1 (z1 + h1) Wt W1 Thi)
    as (C1lo & C1hi & WC1); [exact K1lo | exact K1hi |]. fold c1 in C1lo, C1hi, WC1.
  change OVERLAP_AMOUNT with 0.5 in C1lo, C1hi.
  assert (C1hi' : highest_at c1 (h - 0.5 + h1))
    by (eapply highest_at_eq; [|exact C1hi]; ring).
  destruct (stacked_on_extent c1 k2 OVERLAP_AMOUNT (h - 0.5 + h1) z2 (z2 + h2) WC1 W2 C1hi')
    as (C2lo & C2hi & _); [exact K2lo | exact K2hi |]. fold c2 in C2lo, C2hi.
  change OVERLAP_AMOUNT with 0.5 in C2lo, C2hi.
  assert (C2lo' : lowest_at c2 (h + h1 - 1))
    by (eapply lowest_at_eq; [|exact C2lo]; ring).
  assert (C2hi' : highest_at c2 (h + h1 + h2 - 1))
    by (eapply highest_at_eq; [|exact C2hi]; ring).
  destruct (two_shape_crown c1 c2 (h - 0.5) _ C1lo C2lo') as [Hc _]; [lra|].
  destruct (assembled_tree_lowest trunk [c1; c2] x y (h - 0.5) Tlo Hc) as [_ Hl]; [lra|].
  exists trunk, c1, c2, (translate (x, y, 0) (merge [trunk; c1; c2])), h, h1, h2.
  split; [reflexivity|]. split; [exact Hh|]. split; [exact Hh1|]. split; [exact Hh2|].
  split; [exact Thi|]. split; [exact C1lo|]. split; [exact C1hi'|].
  split; [exact C2lo'|]. split; [exact C2hi'|]. split; [exact Hl|].
  apply (assembled_tree_highest trunk [c1; c2] x y h); [exact Thi | | lra].
  simpl. rewrite app_nil_r.
  apply (highest_of_eq _ (Qmax (h - 0.5 + h1) (h + h1 + h2 - 1))).
  - apply Q.max_r. lra.
  - now apply highest_of_app.
Qed.

End Heights.

(** X9. A pointy tree built at [(x, y, 0)] creates the trunk, the cone and
    the merged tree: the trunk ends at its height, between 2 and 4; the cone
    starts 0.5 below and is as tall as its height, between 6 and 10; the tree
    stands on Z = 0 and its highest vertex is the cone's, at trunk height
    minus 0.5 plus cone height, between 7.5 and 13.5. *)
Theorem pointy_tree_height (trimesh : Creation) (x y : Q) (w : World) :
  CreationSpec trimesh -> rng_ok (rng_draws w) ->
  exists (r : ref) (w' : World) (trunk crown tree : Trimesh) (h_trunk h_crown : Q),
    create_pointy_tree trimesh (x, y, 0) w = Some (r, w') /\
    heap w' = heap w ++ [trunk; crown; tree] /\ heap w' !! r = Some tree /\
    (2 <= h_trunk /\ h_trunk <= 4) /\ (6 <= h_crown /\ h_crown <= 10) /\
    highest_at trunk h_trunk /\
    lowest_at crown (h_trunk - 0.5) /\ highest_at crown (h_trunk - 0.5 + h_crown) /\
    lowest_at tree 0 /\ highest_at tree (h_trunk - 0.5 + h_crown) /\
    7.5 <= h_trunk - 0.5 + h_crown /\ h_trunk - 0.5 + h_crown <= 13.5.
Proof.
  intros contract samples. destruct w as [h d p]. simpl in samples.
  pose proof (runs_create_pointy_tree trimesh contract d samples (x, y, 0) h p) as R.
  destruct (pointy_parts_height trimesh contract d samples p x y)
    as (trunk & crown & tree & ht & hc & E & Ht & Hc & Thi & Clo & Chi & Lo & Hi).
  rewrite E in R.
  eexists; eexists. exists trunk, crown, tree, ht, hc.
  split; [exact R|]. simpl. split; [reflexivity|]. split; [now rewrite lookup_past|].
  split; [exact Ht|]. split; [exact Hc|]. split; [exact Thi|]. split; [exact Clo|].
  split; [exact Chi|]. split; [exact Lo|]. split; [exact Hi|]. split; lra.
Qed.

Lemma pointy_tree_height_witness :
  exists (r : ref) (w' : World) (trunk crown tree : Trimesh) (h_trunk h_crown : Q),
    create_pointy_tree polyhedra (1, 2, 0) empty_world = Some (r, w') /\
    heap w' = heap empty_world ++ [trunk; crown; tree] /\ heap w' !! r = Some tree /\
    (2 <= h_trunk /\ h_trunk <= 4) /\ (6 <= h_crown /\ h_crown <= 10) /\
    highest_at trunk h_trunk /\
    lowest_at crown (h_trunk - 0.5) /\ highest_at crown (h_trunk - 0.5 + h_crown) /\
    lowest_at tree 0 /\ highest_at tree (h_trunk - 0.5 + h_crown) /\
    7.5 <= h_trunk - 0.5 + h_crown /\ h_trunk - 0.5 + h_crown <= 13.5.
Proof.
  apply (pointy_tree_height polyhedra 1 2 empty_world polyhedra_contract sample_draws_ok).
Defined.

(** X10. In a stacked tree built at [(x, y, 0)] the first cone spans from the
    trunk height minus 0.5 up by its own height, the second cone starts 0.5
    below the first cone's top, and the tree stands on Z = 0 and ends at
    trunk height + first cone height + second cone height - 1, which is
    between 6 and 11. *)
Theorem stacked_tree_height (trimesh : Creation) (x y : Q) (w : World) :
  CreationSpec trimesh -> rng_ok (rng_draws w) ->
  exists (r : ref) (w' : World) (trunk c1 c2 tree : Trimesh) (h_trunk h1 h2 : Q),
    create_stacked_tree trimesh (x, y, 0) w = Some (r, w') /\
    heap w' = heap w ++ [trunk; c1; c2; tree] /\ heap w' !! r = Some tree /\
    (2 <= h_trunk /\ h_trunk <= 3) /\ (3 <= h1 /\ h1 <= 5) /\ (2 <= h2 /\ h2 <= 4) /\
    highest_at trunk h_trunk /\
    lowest_at c1 (h_trunk - 0.5) /\ highest_at c1 (h_trunk - 0.5 + h1) /\
    lowest_at c2 (h_trunk + h1 - 1) /\ highest_at c2 (h_trunk + h1 + h2 - 1) /\
    lowest_at tree 0 /\ highest_at tree (h_trunk + h1 + h2 - 1) /\
    6 <= h_trunk + h1 + h2 - 1 /\ h_trunk + h1 + h2 - 1 <= 11.
Proof.
  intros contract samples. destruct w as [h d p]. simpl in samples.
  pose proof (runs_create_stacked_tree trimesh contract d samples (x, y, 0) h p) as R.
  destruct (stacked_parts_height trimesh contract d samples p x y)
    as (trunk & c1 & c2 & tree & ht & h1 & h2 & E & Ht & H1 & H2 & F).
  rewrite E in R.
  eexists; eexists. exists trunk, c1, c2, tree, ht, h1, h2.
  split; [exact R|]. simpl. split; [reflexivity|]. split; [now rewrite lookup_past|].
  split; [exact Ht|]. split; [exact H1|]. split; [exact H2|].
  destruct F as (A & B & C & D & E' & F & G).
  repeat (split; [assumption|]). split; lra.
Qed.

Lemma stacked_tree_height_witness :
  exists (r : ref) (w' : World) (trunk c1 c2 tree : Trimesh) (h_trunk h1 h2 : Q),
    create_stacked_tree polyhedra (1, 2, 0) empty_world = Some (r, w') /\
    heap w' = heap empty_world ++ [trunk; c1; c2; tree] /\ heap w' !! r = Some tree /\
    (2 <= h_trunk /\ h_trunk <= 3) /\ (3 <= h1 /\ h1 <= 5) /\ (2 <= h2 /\ h2 <= 4) /\
    highest_at trunk h_trunk /\
    lowest_at c1 (h_trunk - 0.5) /\ highest_at c1 (h_trunk - 0.5 + h1) /\
    lowest_at c2 (h_trunk + h1 - 1) /\ highest_at c2 (h_trunk + h1 + h2 - 1) /\
    lowest_at tree 0 /\ highest_at tree (h_trunk + h1 + h2 - 1) /\
    6 <= h_trunk + h1 + h2 - 1 /\ h_trunk + h1 + h2 - 1 <= 11.
Proof.
  apply (stacked_tree_height polyhedra 1 2 empty_world polyhedra_contract sample_draws_ok).
Defined.

(** * float64 rounding in [stack_on_top] *)

(** ** The error of [round64] *)

Lemma rne_error (t : Q) :
  - (1 # 2) <= inject_Z (rne t) - t /\ inject_Z (rne t) - t <= 1 # 2.
Proof.
  unfold rne. set (f := Qfloor t).
  pose proof (Qfloor_le t) as Hlo. pose proof (Qlt_floor t) as Hhi. fold f in Hlo, Hhi.
  rewrite inject_Z_plus in Hhi. change (inject_Z 1) with 1 in Hhi.
  assert (Up : inject_Z (f + 1) == inject_Z f + 1) by (rewrite inject_Z_plus; reflexivity).
  destruct (Qcompare_spec (t - inject_Z f) (1 # 2)) as [E|L|G].
  - destruct (Z.even f); [|rewrite Up]; split; lra.
  - split; lra.
  - rewrite Up. split; lra.
Qed.

Lemma binade_small (x : Q) : Qabs x <= 2097152 -> (binade x <= 21)%Z.
Proof.
  intros H. unfold binade. destruct (Qle_bool 1 (Qabs x)).
  - change 21%Z with (Z.log2 2097152). apply Z.log2_le_mono.
    rewrite <- (Qfloor_Z 2097152). now apply Qfloor_resp_le.
  - pose proof (Z.log2_up_nonneg (Qceiling (/ Qabs x))). lia.
Qed.

Lemma round64_error (x : Q) :
  Qabs x <= 2097152 ->
  - (1 # 4294967296) <= round64 x - x /\ round64 x - x <= 1 # 4294967296.
Proof.
  intros H. unfold round64. rewrite Qred_correct.
  set (e := ulp_exponent x).
  assert (He : (e <= -31)%Z).
  { unfold e, ulp_exponent. pose proof (binade_small x H). lia. }
  assert (P : 0 < 2 ^ e) by (apply Qpower_0_lt; reflexivity).
  assert (U : 2 ^ e <= 1 # 2147483648).
  { change (1 # 2147483648) with (2 ^ (-31)). apply Qpower_le_compat_l; [exact He|].
    discriminate. }
  set (t := x / 2 ^ e).
  assert (Ex : x == t * 2 ^ e) by (unfold t; field; lra).
  destruct (rne_error t) as [Lo Hi].
  set (k := inject_Z (rne t)) in *.
  assert (D : k * 2 ^ e - x == (k - t) * 2 ^ e) by (rewrite Ex at 1; ring).
  rewrite D.
  assert (A : (k - t) * 2 ^ e <= (1 # 2) * 2 ^ e)
    by (apply Qmult_le_compat_r; [exact Hi | lra]).
  assert (B : - (1 # 2) * 2 ^ e <= (k - t) * 2 ^ e)
    by (apply Qmult_le_compat_r; [exact Lo | lra]).
  split; lra.
Qed.

(** ** Stacking with rounding *)

Lemma minimum_close (eps x y : Q) (l l' : list Q) :
  - eps <= x - y /\ x - y <= eps ->
  Forall2 (fun a b => - eps <= a - b /\ a - b <= eps) l l' ->
  - eps <= minimum x l - minimum y l' /\ minimum x l - minimum y l' <= eps.
Proof.
  intros Hxy H. revert x y Hxy.
  induction H as [|a b l l' Hab _ IH]; intros x y Hxy; simpl; [exact Hxy|].
  destruct (IH a b Hab) as [I1 I2]. destruct Hxy as [X1 X2].
  set (p := minimum a l) in *. set (q := minimum b l') in *.
  destruct (Q.min_spec x p) as [[A E]|[A E]];
    destruct (Q.min_spec y q) as [[C F]|[C F]]; rewrite E, F; split; lra.
Qed.

Lemma Forall2_same_maps {A B : Type} (R : B -> B -> Prop) (f g : A -> B) (l : list A) :
  Forall (fun a => R (f a) (g a)) l -> Forall2 R (map f l) (map g l).
Proof.
  induction 1 as [|a l Ha _ IH]; simpl; constructor; assumption.
Qed.

Lemma column_within (M : Q) (vs : list vec3) :
  Forall (fun v => Qabs (vz v) <= M) vs ->
  (forall z, column_min vz vs = Some z -> - M <= z /\ z <= M) /\
  (forall z, column_max vz vs = Some z -> - M <= z /\ z <= M).
Proof.
  intros H.
  assert (H' : Forall (fun z => - M <= z /\ z <= M) (map vz vs)).
  { apply Forall_map. eapply Forall_impl; [exact H|]. intros v Hv.
    now apply Qabs_Qle_condition in Hv. }
  destruct vs as [|v vs]; [split; intros z Hz; discriminate|].
  simpl in H'. apply Forall_cons in H' as [[Hv1 Hv2] H'].
  split; intros z Hz; simpl in Hz; injection Hz as <-; split.
  - apply minimum_glb; [exact Hv1|]. eapply Forall_impl; [exact H'|]. now intros z [? ?].
  - eapply Qle_trans; [|exact Hv2]. apply minimum_le_elem. now left.
  - eapply Qle_trans; [exact Hv1|]. apply maximum_ge_elem. now left.
  - apply maximum_lub; [exact Hv2|]. eapply Forall_impl; [exact H'|]. now intros z [? ?].
Qed.

Section Rounded_stacking.

Variable fl : Q -> Q.

Lemma stack_on_top_rounded_runs
    (w : World) (bottom top : ref) (mb mt : Trimesh) (lob hib lot hit : vec3) (overlap : Q) :
  heap w !! bottom = Some mb -> heap w !! top = Some mt ->
  bounds mb = Some (lob, hib) -> bounds mt = Some (lot, hit) ->
  runs (stack_on_top_rounded fl bottom top overlap) w top
       (mkWorld (<[top := translate_rounded fl (0, 0, fl (fl (vz hib - overlap) - vz lot)) mt]>
                   (heap w))
                (rng_draws w) (rng_pos w)).
Proof.
  intros Hb Ht Bb Bt. unfold stack_on_top_rounded.
  eapply runs_bind; [eapply runs_get_bounds; eassumption|].
  eapply runs_bind; [eapply runs_get_bounds; eassumption|].
  eapply runs_bind; [apply runs_update, Ht|]. apply runs_ret.
Qed.

Lemma map_vz_vadd_rounded (s : Q) (vs : list vec3) :
  map vz (map (vadd_rounded fl (0, 0, s)) vs) = map (fun z => fl (z + s)) (map vz vs).
Proof.
  induction vs as [|v vs IH]; simpl; [reflexivity | now rewrite IH].
Qed.

Lemma map_vz_translate_rounded (s : Q) (m : Trimesh) :
  map vz (vertices (translate_rounded fl (0, 0, s) m))
  = map (fun z => fl (z + s)) (map vz (vertices m)).
Proof. apply map_vz_vadd_rounded. Qed.

(** With an error of at most [eps] per operation on magnitudes up to
    [4 * M + 2 * eps], the top solid lands within [3 * eps] of the target. *)
Lemma stacked_rounded_close (eps M zb zt overlap : Q) (mt : Trimesh) :
  (forall x, Qabs x <= 4 * M + 2 * eps -> - eps <= fl x - x /\ fl x - x <= eps) ->
  0 <= eps -> 0 <= overlap -> overlap <= M ->
  - M <= zb -> zb <= M ->
  min_z mt = Some zt -> Forall (fun v => Qabs (vz v) <= M) (vertices mt) ->
  exists zt',
    min_z (translate_rounded fl (0, 0, fl (fl (zb - overlap) - zt)) mt) = Some zt' /\
    - (3 * eps) <= zt' - (zb - overlap) /\ zt' - (zb - overlap) <= 3 * eps.
Proof.
  intros Hfl He Ho1 Ho2 Hb1 Hb2 Hmin Hvs.
  destruct (column_within M (vertices mt) Hvs) as [Hlo _].
  destruct (Hlo zt Hmin) as [Ht1 Ht2].
  set (a1 := zb - overlap).
  destruct (Hfl a1) as [A1 A2]; [apply Qabs_Qle_condition; unfold a1; split; lra|].
  set (a2 := fl a1 - zt).
  destruct (Hfl a2) as [B1 B2]; [apply Qabs_Qle_condition; unfold a2, a1 in *; split; lra|].
  set (s := fl a2) in *.
  assert (S1 : - (2 * eps) <= s - (a1 - zt)) by (unfold a2 in *; lra).
  assert (S2 : s - (a1 - zt) <= 2 * eps) by (unfold a2 in *; lra).
  assert (Z : Forall (fun z => - M <= z /\ z <= M) (map vz (vertices mt))).
  { apply Forall_map. eapply Forall_impl; [exact Hvs|]. intros v Hv.
    now apply Qabs_Qle_condition in Hv. }
  assert (C : forall z, - M <= z /\ z <= M ->
                - eps <= fl (z + s) - (z + s) /\ fl (z + s) - (z + s) <= eps).
  { intros z [Z1 Z2]. apply Hfl. apply Qabs_Qle_condition. unfold a1 in *. split; lra. }
  unfold min_z in *. simpl vertices.
  destruct (vertices mt) as [|v vs]; [discriminate|].
  simpl in Hmin. injection Hmin as <-. simpl in Z. apply Forall_cons in Z as [Zv Z].
  simpl. eexists; split; [reflexivity|].
  rewrite map_vz_vadd_rounded. change (vz (vadd_rounded fl (0, 0, s) v)) with (fl (vz v + s)).
  assert (K : - eps <= minimum (fl (vz v + s)) (map (fun z => fl (z + s)) (map vz vs))
                       - minimum (vz v + s) (map (fun z => z + s) (map vz vs)) /\
              minimum (fl (vz v + s)) (map (fun z => fl (z + s)) (map vz vs))
              - minimum (vz v + s) (map (fun z => z + s) (map vz vs)) <= eps).
  { apply minimum_close; [now apply C|].
    apply Forall2_same_maps. eapply Forall_impl; [exact Z|]. exact C. }
  rewrite minimum_shift in K. unfold a1 in *. split; lra.
Qed.

End Rounded_stacking.

(** At the rounding [fun x => x] the rounded operation is the exact one. *)
Lemma stack_on_top_rounded_exact (bottom top : ref) (overlap : Q) (w : World) :
  stack_on_top_rounded (fun x => x) bottom top overlap w = stack_on_top bottom top overlap w.
Proof. reflexivity. Qed.

(** C1, as the script has it.  For two valid solids whose Z coordinates are
    at most 262144 (2^18) in magnitude and an overlap between 0 and that
    bound, [stack_on_top] in float64 arithmetic translates the top solid
    along Z by the shift [fl (fl (max Z of bottom - overlap) - min Z of top)],
    every Z becoming [fl (z + shift)], and afterwards the minimum Z of the
    top solid is within 1e-6 of the maximum Z of the bottom solid minus the
    overlap. *)
Theorem stack_on_top_closes_gap_float64
    (w : World) (bottom top : ref) (mb mt : Trimesh) (overlap zb zt : Q) :
  heap w !! bottom = Some mb -> heap w !! top = Some mt ->
  well_formed mb = true -> well_formed mt = true ->
  max_z mb = Some zb -> min_z mt = Some zt ->
  0 <= overlap -> overlap <= 262144 ->
  Forall (fun v => Qabs (vz v) <= 262144) (vertices mb) ->
  Forall (fun v => Qabs (vz v) <= 262144) (vertices mt) ->
  exists (w' : World) (mt' : Trimesh) (zt' shift_z : Q),
    stack_on_top_rounded round64 bottom top overlap w = Some (top, w') /\
    heap w' !! top = Some mt' /\
    shift_z = round64 (round64 (zb - overlap) - zt) /\
    map vz (vertices mt') = map (fun z => round64 (z + shift_z)) (map vz (vertices mt)) /\
    min_z mt' = Some zt' /\
    Qabs (zt' - (zb - overlap)) <= 1e-6.
Proof.
  intros Hb Ht Wb Wt Hzb Hzt Ho1 Ho2 Vb Vt.
  destruct (bounds_well_formed mb Wb) as (lob & hib & Bb & _ & Hhi).
  destruct (bounds_well_formed mt Wt) as (lot & hit & Bt & Hlo & _).
  rewrite Hzb in Hhi. injection Hhi as ->. rewrite Hzt in Hlo. injection Hlo as ->.
  pose proof (stack_on_top_rounded_runs round64 w bottom top mb mt lob hib lot hit overlap
                Hb Ht Bb Bt) as R.
  destruct (column_within 262144 (vertices mb) Vb) as [_ Hmax].
  destruct (Hmax (vz hib) Hzb) as [Zb1 Zb2].
  destruct (stacked_rounded_close round64 (1 # 4294967296) 262144 (vz hib) (vz lot) overlap mt)
    as (zt' & Hzt' & C1 & C2); try assumption; try discriminate.
  { intros x Hx. apply round64_error. eapply Qle_trans; [exact Hx|]. discriminate. }
  eexists. exists (translate_rounded round64
                     (0, 0, round64 (round64 (vz hib - overlap) - vz lot)) mt), zt'.
  eexists. split; [exact R|]. simpl heap.
  split; [apply list_lookup_insert_eq; eapply lookup_lt_Some; exact Ht|].
  split; [reflexivity|]. split; [apply map_vz_translate_rounded|]. split; [exact Hzt'|].
  apply Qabs_Qle_condition. assert (T : 3 * (1 # 4294967296) <= 1e-6) by discriminate.
  split; lra.
Qed.

Lemma stack_on_top_closes_gap_float64_witness :
  exists (w' : World) (mt' : Trimesh) (zt' shift_z : Q),
    stack_on_top_rounded round64 0%nat 1%nat 0.5 two_solids = Some (1%nat, w') /\
    heap w' !! 1%nat = Some mt' /\
    shift_z = round64 (round64 (3 - 0.5) - (-3)) /\
    map vz (vertices mt')
    = map (fun z => round64 (z + shift_z)) (map vz (vertices (tetrahedron (-3)))) /\
    min_z mt' = Some zt' /\
    Qabs (zt' - (3 - 0.5)) <= 1e-6.
Proof.
  apply (stack_on_top_closes_gap_float64 two_solids 0%nat 1%nat (tetrahedron 2)
           (tetrahedron (-3)) 0.5 3 (-3)); try reflexivity; try discriminate.
  - repeat (constructor; [discriminate|]). constructor.
  - repeat (constructor; [discriminate|]). constructor.
Defined.


(** C1 as stated fails: the bottom solid spans Z = 1e16 .. 1e16 + 2, the top
    solid Z = -3 .. -2 and the overlap is 0.5, all binary64 numbers.  The
    shift is 1e16 + 4, the top solid ends at Z = 1e16 .. 1e16 + 2, and its
    minimum Z is 1.5 away from the maximum Z of the bottom minus the overlap,
    1e16 + 1.5. *)
Lemma stack_on_top_misses_far_from_origin :
  match stack_on_top_rounded round64 0%nat 1%nat 0.5 far_solids with
  | Some (_, w') =>
      match heap w' !! 0%nat, heap w' !! 1%nat with
      | Some mb, Some mt' =>
          option_map Qred (max_z mb) = Some (1e16 + 2) /\
          option_map Qred (min_z mt') = Some 1e16 /\
          match max_z mb, min_z mt' with
          | Some zb, Some zt' =>
              Qabs (zt' - (zb - 0.5)) == 1.5 /\ 1e-6 < Qabs (zt' - (zb - 0.5))
          | _, _ => False
          end
      | _, _ => False
      end
  | None => False
  end.
Proof. vm_compute. repeat split; reflexivity. Qed.
